(** * The incremental compilation cache of tsc_wrapped (cache.js)

    A shallow embedding of the classes [Cache], [FileCache],
    [ProgramAndFileCache], [CachedFileLoader] and [UncachedFileLoader],
    followed by the properties of the caching core.

    Conventions of the embedding:
    - a JavaScript [Map] is an association list in insertion order;
    - [undefined] is [None]; cache values are objects, hence truthy, so the
      tests [if (entry)] and [if (!sourceFile)] are tests for presence; a
      digest is a string, and the empty string is falsy;
    - methods are computations in a state monad over [this] and the ambient
      world (disk, heap readings, clock, telemetry); a [throw] keeps every
      mutation done before it;
    - counters are JavaScript numbers holding integers (exact below 2^53),
      modelled by [Z]; the quotient [originalSize / 2] is not an integer
      division and is modelled by [Q]. *)

From Stdlib Require Import String List ZArith QArith Bool Lia.
Import ListNotations.

Open Scope string_scope.
Open Scope list_scope.
Open Scope Z_scope.

Set Implicit Arguments.

(** ** JavaScript [Map] with string keys *)

Module JSMap.

Definition t (V : Type) : Type := list (string * V).

Definition empty {V : Type} : t V := [].

Definition is_key {V : Type} (key : string) (kv : string * V) : bool :=
  String.eqb (fst kv) key.

Fixpoint get {V : Type} (key : string) (m : t V) : option V :=
  match m with
  | [] => None
  | kv :: rest => if is_key key kv then Some (snd kv) else get key rest
  end.

Definition has {V : Type} (key : string) (m : t V) : bool :=
  existsb (is_key key) m.

(** Overwriting an existing key keeps its position. *)
Fixpoint replace {V : Type} (key : string) (v : V) (m : t V) : t V :=
  match m with
  | [] => []
  | kv :: rest =>
      if is_key key kv then (key, v) :: rest else kv :: replace key v rest
  end.

Definition set {V : Type} (key : string) (v : V) (m : t V) : t V :=
  if has key m then replace key v m else m ++ [(key, v)].

Definition delete {V : Type} (key : string) (m : t V) : t V :=
  filter (fun kv => negb (is_key key kv)) m.

Definition size {V : Type} (m : t V) : Z := Z.of_nat (length m).

Definition keys {V : Type} (m : t V) : list string := List.map fst m.

Definition entries {V : Type} (m : t V) : list (string * V) := m.

(** [new Map(iterable)] *)
Definition of_entries {V : Type} (l : list (string * V)) : t V :=
  fold_left (fun m kv => set (fst kv) (snd kv) m) l empty.

(** A [Map] holds each key once. *)
Definition wf {V : Type} (m : t V) : Prop := NoDup (keys m).

End JSMap.

(** ** Errors, telemetry and the ambient world *)

(** [ts.ScriptTarget] is a numeric enum. *)
Definition ScriptTarget : Type := Z.

Record Stats : Type := mkStats { reads : Z; hits : Z; evictions : Z }.

Inductive Error : Type :=
| FileCache_max_size_is_negative (maxCacheSize : Z)
| missing_input_digest (filePath : string) (known : list string)
| ENOENT (filePath : string).

(** One constructor per call site of [this.debug]. *)
Inductive DebugMsg : Type :=
| cache_hit (name key : string)
| cache_miss (name key : string)
| Evicting_from_the (name : string)
| Evicted (keysDropped : Z) (name : string)
| cache_stats (name : string) (stats : Stats)
| Cache_max_size_is (megabytes : Z)
| updating_digests (digests : JSMap.t string)
| dropping_file_cache_entry (filePath oldDigest newDigest : string)
| Loaded_file (filePath : string) (dropped : Z)
| Loaded_program (target : string) (dropped : Z).

Inductive Event : Type :=
| debug (msg : DebugMsg)
| perfTrace_counter (name : string) (counts : list (string * Z))
| perfTrace_snapshotMemoryUsage
| fs_readFileSync (filePath : string)
| ts_createSourceFile (fileName sourceText : string) (langVer : ScriptTarget).

(** The world outside the cache: the disk, the successive readings of
    [process.memoryUsage().heapUsed] and of [Date.now()], the number of
    readings taken so far, and the telemetry emitted so far (oldest first). *)
Record World : Type := mkWorld {
  disk : string -> option string;
  heapUsed : nat -> Z;
  dateNow : nat -> Z;
  ticks : nat;
  trace : list Event
}.

(** ** The monad of methods *)

Inductive Result (A : Type) : Type :=
| Return (a : A)
| Throw (e : Error).

Arguments Return {A} a.
Arguments Throw {A} e.

Definition M (S A : Type) : Type := S -> World -> Result A * S * World.

Definition ret {S A : Type} (a : A) : M S A :=
  fun this w => (Return a, this, w).

Definition throw {S A : Type} (e : Error) : M S A :=
  fun this w => (Throw e, this, w).

Definition bind {S A B : Type} (m : M S A) (f : A -> M S B) : M S B :=
  fun this w =>
    match m this w with
    | (Return a, this', w') => f a this' w'
    | (Throw e, this', w') => (Throw e, this', w')
    end.

Declare Scope method_scope.
Delimit Scope method_scope with method.
Notation "x <- c1 ;; c2" := (bind c1 (fun x => c2))
  (at level 100, c1 at next level, right associativity) : method_scope.
Notation "c1 ;; c2" := (bind c1 (fun _ => c2))
  (at level 100, right associativity) : method_scope.
Open Scope method_scope.

Definition self {S : Type} : M S S :=
  fun this w => (Return this, this, w).

Definition modify {S : Type} (f : S -> S) : M S unit :=
  fun this w => (Return tt, f this, w).

(** Runs a method of a member object. *)
Definition zoom {S T A : Type} (field : S -> T) (assign : T -> S -> S)
    (m : M T A) : M S A :=
  fun this w =>
    match m (field this) w with
    | (r, member, w') => (r, assign member this, w')
    end.

Definition emit_event (e : Event) (w : World) : World :=
  mkWorld (disk w) (heapUsed w) (dateNow w) (ticks w) (trace w ++ [e]).

Definition tick (w : World) : World :=
  mkWorld (disk w) (heapUsed w) (dateNow w) (Datatypes.S (ticks w)) (trace w).

Definition emit {S : Type} (e : Event) : M S unit :=
  fun this w => (Return tt, this, emit_event e w).

Definition process_memoryUsage_heapUsed {S : Type} : M S Z :=
  fun this w => (Return (heapUsed w (ticks w)), this, tick w).

Definition Date_now {S : Type} : M S Z :=
  fun this w => (Return (dateNow w (ticks w)), this, tick w).

Definition readFileSync {S : Type} (filePath : string) : M S string :=
  fun this w =>
    match disk w filePath with
    | Some sourceText => (Return sourceText, this, emit_event (fs_readFileSync filePath) w)
    | None => (Throw (ENOENT filePath), this, emit_event (fs_readFileSync filePath) w)
    end.

(** What a [Map], a [Set] or any object with a [has] method offers to
    [evict]. *)
Definition KeySet : Type := string -> bool.

(** ** class Cache *)

Module Cache.

Record t (V : Type) : Type := mk {
  name : string;
  map : JSMap.t V;
  stats : Stats
}.

Arguments mk {V} name map stats.

Definition constructor {V : Type} (name : string) : t V :=
  mk name JSMap.empty (mkStats 0 0 0).

Definition with_map {V : Type} (f : JSMap.t V -> JSMap.t V) (this : t V) : t V :=
  mk (name this) (f (map this)) (stats this).

Definition with_stats {V : Type} (f : Stats -> Stats) (this : t V) : t V :=
  mk (name this) (map this) (f (stats this)).

Definition set {V : Type} (key : string) (value : V) : M (t V) unit :=
  modify (with_map (JSMap.set key value)).

Definition traceStats {V : Type} : M (t V) unit :=
  this <- self ;;
  emit (perfTrace_counter (name this ++ " cache hit rate")%string
          [("hits", hits (stats this));
           ("misses", reads (stats this) - hits (stats this))]) ;;
  emit (perfTrace_counter (name this ++ " cache evictions")%string
          [("evictions", evictions (stats this))]) ;;
  emit (perfTrace_counter (name this ++ " cache size")%string
          [((name this ++ "s")%string, JSMap.size (map this))]).

Definition get {V : Type} (key : string) (updateCache : bool) : M (t V) (option V) :=
  modify (with_stats (fun s => mkStats (reads s + 1) (hits s) (evictions s))) ;;
  this <- self ;;
  let entry := JSMap.get key (map this) in
  (if updateCache then
     match entry with
     | Some e =>
         emit (debug (cache_hit (name this) key)) ;;
         modify (with_stats (fun s => mkStats (reads s) (hits s + 1) (evictions s))) ;;
         modify (with_map (JSMap.delete key)) ;;
         modify (with_map (JSMap.set key e))
     | None =>
         emit (debug (cache_miss (name this) key))
     end ;;
     traceStats
   else ret tt) ;;
  ret entry.

Definition delete {V : Type} (key : string) : M (t V) unit :=
  modify (with_map (JSMap.delete key)).

Definition pinned (unevictableKeys : option KeySet) (key : string) : bool :=
  match unevictableKeys with
  | Some has => has key
  | None => false
  end.

(** The [for (const key of this.map.keys())] loop of [evict]. Only the key
    in hand is ever deleted, so the live iterator visits the keys the map
    had when the loop began, in order. *)
Fixpoint evict_loop {V : Type} (unevictableKeys : option KeySet)
    (keys : list string) (numberKeysToDrop : Q) (m : JSMap.t V) : JSMap.t V :=
  match keys with
  | [] => m
  | key :: rest =>
      if Qeq_bool numberKeysToDrop 0 then m
      else if pinned unevictableKeys key
           then evict_loop unevictableKeys rest numberKeysToDrop m
           else evict_loop unevictableKeys rest (numberKeysToDrop - 1)
                  (JSMap.delete key m)
  end.

Definition evict {V : Type} (unevictableKeys : option KeySet) : M (t V) Z :=
  this <- self ;;
  emit (debug (Evicting_from_the (name this))) ;;
  let originalSize := JSMap.size (map this) in
  let numberKeysToDrop := (inject_Z originalSize / 2)%Q in
  if Qeq_bool numberKeysToDrop 0 then ret 0
  else
    modify (with_map (evict_loop unevictableKeys (JSMap.keys (map this))
                        numberKeysToDrop)) ;;
    this <- self ;;
    let keysDropped := originalSize - JSMap.size (map this) in
    modify (with_stats (fun s =>
              mkStats (reads s) (hits s) (evictions s + keysDropped))) ;;
    emit (debug (Evicted keysDropped (name this))) ;;
    traceStats ;;
    ret keysDropped.

Definition keys {V : Type} : M (t V) (list string) :=
  this <- self ;;
  ret (JSMap.keys (map this)).

Definition resetStats {V : Type} : M (t V) unit :=
  modify (with_stats (fun _ => mkStats 0 0 0)).

(** The percentage shown is a formatted float; the message is recorded
    with the counters it is computed from. *)
Definition printStats {V : Type} : M (t V) unit :=
  this <- self ;;
  emit (debug (cache_stats (name this) (stats this))).

End Cache.


(** ** The TypeScript library

    The parser and the types of its results belong to the [typescript]
    package; the cache treats parsed files and programs as opaque objects.
    [createSourceFile fileName sourceText languageVersion] stands for
    [ts.createSourceFile(fileName, sourceText, languageVersion, true)]. *)

Class TypeScript : Type := {
  SourceFile : Type;
  Program : Type;
  createSourceFile : string -> string -> ScriptTarget -> SourceFile
}.

Definition ts_createSourceFile_call `{TypeScript} {S : Type}
    (fileName sourceText : string) (langVer : ScriptTarget) : M S SourceFile :=
  emit (ts_createSourceFile fileName sourceText langVer) ;;
  ret (createSourceFile fileName sourceText langVer).

(** [x >> 20] on the 32-bit integer of [x] *)
Definition ToInt32 (x : Z) : Z := (x + 2 ^ 31) mod 2 ^ 32 - 2 ^ 31.

Definition DEFAULT_MAX_MEM_USAGE : Z := 1024 * Z.shiftl 1 20.

(** The argument of [updateCache]: a [Map], or for backwards compatibility a
    plain object, given by its own properties in [Object.keys] order. *)
Inductive Digests : Type :=
| digests_Map (m : JSMap.t string)
| digests_Object (properties : list (string * string)).

Definition as_Map (digests : Digests) : JSMap.t string :=
  match digests with
  | digests_Map m => m
  | digests_Object properties => JSMap.of_entries properties
  end.

(** ** class FileCache *)

Module FileCache.
Section WithTypeScript.
Context `{TypeScript}.

Record SourceFileEntry : Type := mkEntry {
  digest : string;
  value : SourceFile
}.

Record t : Type := mk {
  fileCache : Cache.t SourceFileEntry;
  lastDigests : JSMap.t string;
  cannotEvict : bool;
  maxMemoryUsage : Z
}.

Definition constructor : t :=
  mk (Cache.constructor "file") JSMap.empty false DEFAULT_MAX_MEM_USAGE.

Definition set_fileCache (c : Cache.t SourceFileEntry) (this : t) : t :=
  mk c (lastDigests this) (cannotEvict this) (maxMemoryUsage this).

Definition set_lastDigests (d : JSMap.t string) (this : t) : t :=
  mk (fileCache this) d (cannotEvict this) (maxMemoryUsage this).

Definition set_cannotEvict (b : bool) (this : t) : t :=
  mk (fileCache this) (lastDigests this) b (maxMemoryUsage this).

Definition set_maxMemoryUsage (n : Z) (this : t) : t :=
  mk (fileCache this) (lastDigests this) (cannotEvict this) n.

Definition on_fileCache {A : Type} (m : M (Cache.t SourceFileEntry) A) : M t A :=
  zoom fileCache set_fileCache m.

(** The default [shouldFreeMemory] property. *)
Definition shouldFreeMemory : M t bool :=
  heap <- process_memoryUsage_heapUsed ;;
  this <- self ;;
  ret (heap >? maxMemoryUsage this).

Definition maybeFreeMemory : M t Z :=
  should <- shouldFreeMemory ;;
  this <- self ;;
  if negb should || cannotEvict this then ret 0
  else
    dropped <- on_fileCache
                 (Cache.evict (Some (fun key => JSMap.has key (lastDigests this)))) ;;
    (if dropped =? 0 then modify (set_cannotEvict true) else ret tt) ;;
    ret dropped.

Definition setMaxCacheSize (maxCacheSize : Z) : M t unit :=
  if maxCacheSize <? 0 then throw (FileCache_max_size_is_negative maxCacheSize)
  else
    emit (debug (Cache_max_size_is (Z.shiftr (ToInt32 maxCacheSize) 20))) ;;
    modify (set_maxMemoryUsage maxCacheSize) ;;
    maybeFreeMemory ;;
    ret tt.

Definition resetMaxCacheSize : M t unit :=
  setMaxCacheSize DEFAULT_MAX_MEM_USAGE.

(** The body of the loop of [updateCache] for one entry of [digests]. *)
Definition updateCache_step (filePath newDigest : string) : M t unit :=
  entry <- on_fileCache (Cache.get filePath false) ;;
  match entry with
  | Some e =>
      if negb (String.eqb (digest e) newDigest) then
        emit (debug (dropping_file_cache_entry filePath (digest e) newDigest)) ;;
        on_fileCache (Cache.delete filePath)
      else ret tt
  | None => ret tt
  end.

Fixpoint updateCache_loop (entries : list (string * string)) : M t unit :=
  match entries with
  | [] => ret tt
  | (filePath, newDigest) :: rest =>
      updateCache_step filePath newDigest ;;
      updateCache_loop rest
  end.

Definition updateCache (digests : Digests) : M t unit :=
  let digests := as_Map digests in
  emit (debug (updating_digests digests)) ;;
  modify (set_lastDigests digests) ;;
  modify (set_cannotEvict false) ;;
  updateCache_loop (JSMap.entries digests).

(** [!digest] holds of [undefined] and of the empty string. *)
Definition getLastDigest (filePath : string) : M t string :=
  this <- self ;;
  match JSMap.get filePath (lastDigests this) with
  | Some digest =>
      if String.eqb digest ""
      then throw (missing_input_digest filePath (JSMap.keys (lastDigests this)))
      else ret digest
  | None => throw (missing_input_digest filePath (JSMap.keys (lastDigests this)))
  end.

Definition getCache (filePath : string) : M t (option SourceFile) :=
  entry <- on_fileCache (Cache.get filePath true) ;;
  match entry with
  | Some e => ret (Some (value e))
  | None => ret None
  end.

Definition putCache (filePath : string) (entry : SourceFileEntry) : M t unit :=
  dropped <- maybeFreeMemory ;;
  on_fileCache (Cache.set filePath entry) ;;
  emit (debug (Loaded_file filePath dropped)).

Definition isKnownInput (filePath : string) : M t bool :=
  this <- self ;;
  ret (JSMap.has filePath (lastDigests this)).

Definition inCache (filePath : string) : M t bool :=
  sourceFile <- getCache filePath ;;
  ret (match sourceFile with Some _ => true | None => false end).

Definition resetStats : M t unit := on_fileCache Cache.resetStats.

Definition printStats : M t unit := on_fileCache Cache.printStats.

Definition traceStats : M t unit := on_fileCache Cache.traceStats.

Definition getFileCacheKeysForTest : M t (list string) := on_fileCache Cache.keys.

End WithTypeScript.
End FileCache.

(** ** class ProgramAndFileCache extends FileCache *)

Module ProgramAndFileCache.
Section WithTypeScript.
Context `{TypeScript}.

Record t : Type := mk {
  super : FileCache.t;
  programCache : Cache.t Program
}.

Definition constructor : t :=
  mk FileCache.constructor (Cache.constructor "program").

Definition set_super (f : FileCache.t) (this : t) : t :=
  mk f (programCache this).

Definition set_programCache (c : Cache.t Program) (this : t) : t :=
  mk (super this) c.

Definition on_super {A : Type} (m : M FileCache.t A) : M t A :=
  zoom super set_super m.

Definition on_programCache {A : Type} (m : M (Cache.t Program) A) : M t A :=
  zoom programCache set_programCache m.

Definition getProgram (target : string) : M t (option Program) :=
  on_programCache (Cache.get target true).

Definition maybeFreeMemory : M t Z :=
  should <- on_super FileCache.shouldFreeMemory ;;
  if negb should then ret 0
  else
    dropped <- on_programCache (Cache.evict None) ;;
    if dropped >? 0 then ret dropped
    else on_super FileCache.maybeFreeMemory.

Definition putProgram (target : string) (program : Program) : M t unit :=
  dropped <- maybeFreeMemory ;;
  on_programCache (Cache.set target program) ;;
  emit (debug (Loaded_program target dropped)).

Definition resetStats : M t unit :=
  on_super FileCache.resetStats ;;
  on_programCache Cache.resetStats.

Definition printStats : M t unit :=
  on_super FileCache.printStats ;;
  on_programCache Cache.printStats.

Definition traceStats : M t unit :=
  on_super FileCache.traceStats ;;
  on_programCache Cache.traceStats.

Definition getProgramCacheKeysForTest : M t (list string) :=
  on_programCache Cache.keys.

End WithTypeScript.
End ProgramAndFileCache.

(** ** class CachedFileLoader *)

Module CachedFileLoader.
Section WithTypeScript.
Context `{TypeScript}.

Record t : Type := mk {
  cache : FileCache.t;
  totalReadTimeMs : Z
}.

Definition constructor (cache : FileCache.t) : t := mk cache 0.

Definition set_cache (c : FileCache.t) (this : t) : t :=
  mk c (totalReadTimeMs this).

Definition on_cache {A : Type} (m : M FileCache.t A) : M t A :=
  zoom cache set_cache m.

Definition fileExists (filePath : string) : M t bool :=
  on_cache (FileCache.isKnownInput filePath).

Definition loadFile (fileName filePath : string) (langVer : ScriptTarget)
    : M t SourceFile :=
  sourceFile <- on_cache (FileCache.getCache filePath) ;;
  match sourceFile with
  | Some sf => ret sf
  | None =>
      readStart <- Date_now ;;
      sourceText <- readFileSync filePath ;;
      sf <- ts_createSourceFile_call fileName sourceText langVer ;;
      digest <- on_cache (FileCache.getLastDigest filePath) ;;
      let entry := FileCache.mkEntry digest sf in
      readEnd <- Date_now ;;
      on_cache (FileCache.putCache filePath entry) ;;
      modify (fun this =>
                mk (cache this) (totalReadTimeMs this + (readEnd - readStart))) ;;
      this <- self ;;
      emit (perfTrace_counter "file load time" [("read", totalReadTimeMs this)]) ;;
      emit perfTrace_snapshotMemoryUsage ;;
      ret sf
  end.

End WithTypeScript.
End CachedFileLoader.

(** ** class UncachedFileLoader *)

Module UncachedFileLoader.
Section WithTypeScript.
Context `{TypeScript}.

(** [ts.sys.fileExists] *)
Definition fileExists (filePath : string) : M unit bool :=
  fun this w =>
    (Return (match disk w filePath with Some _ => true | None => false end),
     this, w).

Definition loadFile (fileName filePath : string) (langVer : ScriptTarget)
    : M unit SourceFile :=
  sourceText <- readFileSync filePath ;;
  ts_createSourceFile_call fileName sourceText langVer.

End WithTypeScript.
End UncachedFileLoader.

(** ** Reading the outcome of a call *)

Definition result_of {S A : Type} (r : Result A * S * World) : Result A :=
  fst (fst r).

Definition this_after {S A : Type} (r : Result A * S * World) : S :=
  snd (fst r).

Definition world_after {S A : Type} (r : Result A * S * World) : World :=
  snd r.

(** ** Sequences of operations on a store *)

Inductive CacheOp (V : Type) : Type :=
| op_set (key : string) (value : V)
| op_get (key : string) (updateCache : bool)
| op_delete (key : string)
| op_evict (unevictableKeys : option KeySet)
| op_keys
| op_resetStats
| op_printStats
| op_traceStats.

Arguments op_keys {V}.
Arguments op_resetStats {V}.
Arguments op_printStats {V}.
Arguments op_traceStats {V}.
Arguments op_delete {V} key.
Arguments op_evict {V} unevictableKeys.
Arguments op_get {V} key updateCache.

Definition settle {S A : Type} (r : Result A * S * World) : S * World :=
  (this_after r, world_after r).

Definition run_CacheOp {V : Type} (op : CacheOp V) (c : Cache.t V) (w : World)
    : Cache.t V * World :=
  match op with
  | op_set key value => settle (Cache.set key value c w)
  | op_get key updateCache => settle (Cache.get key updateCache c w)
  | op_delete key => settle (Cache.delete key c w)
  | op_evict unevictableKeys => settle (Cache.evict unevictableKeys c w)
  | op_keys => settle (Cache.keys c w)
  | op_resetStats => settle (Cache.resetStats c w)
  | op_printStats => settle (Cache.printStats c w)
  | op_traceStats => settle (Cache.traceStats c w)
  end.

(** The states of the store after each operation of the sequence. *)
Fixpoint states_of {V : Type} (ops : list (CacheOp V)) (c : Cache.t V) (w : World)
    : list (Cache.t V) :=
  match ops with
  | [] => []
  | op :: rest =>
      let (c', w') := run_CacheOp op c w in
      c' :: states_of rest c' w'
  end.

(** ** Auxiliary definitions *)

(** A [get] that counts as a hit. *)
Definition hit {V : Type} (updateCache : bool) (key : string) (m : JSMap.t V)
    : bool :=
  updateCache && JSMap.has key m.

Definition hits_le_reads {V : Type} (c : Cache.t V) : Prop :=
  hits (Cache.stats c) <= reads (Cache.stats c).

(** ** Sequences of operations on a file cache *)

Section FileCacheOps.
Context `{TypeScript}.

Inductive FileCacheOp : Type :=
| call_setMaxCacheSize (maxCacheSize : Z)
| call_resetMaxCacheSize
| call_updateCache (digests : Digests)
| call_getLastDigest (filePath : string)
| call_getCache (filePath : string)
| call_putCache (filePath : string) (entry : FileCache.SourceFileEntry)
| call_isKnownInput (filePath : string)
| call_inCache (filePath : string)
| call_resetStats
| call_printStats
| call_traceStats
| call_maybeFreeMemory
| call_getFileCacheKeysForTest.

Definition is_updateCache (op : FileCacheOp) : bool :=
  match op with
  | call_updateCache _ => true
  | _ => false
  end.

Definition run_FileCacheOp (op : FileCacheOp) (fc : FileCache.t) (w : World)
    : FileCache.t * World :=
  match op with
  | call_setMaxCacheSize maxCacheSize =>
      settle (FileCache.setMaxCacheSize maxCacheSize fc w)
  | call_resetMaxCacheSize => settle (FileCache.resetMaxCacheSize fc w)
  | call_updateCache digests => settle (FileCache.updateCache digests fc w)
  | call_getLastDigest filePath => settle (FileCache.getLastDigest filePath fc w)
  | call_getCache filePath => settle (FileCache.getCache filePath fc w)
  | call_putCache filePath entry => settle (FileCache.putCache filePath entry fc w)
  | call_isKnownInput filePath => settle (FileCache.isKnownInput filePath fc w)
  | call_inCache filePath => settle (FileCache.inCache filePath fc w)
  | call_resetStats => settle (FileCache.resetStats fc w)
  | call_printStats => settle (FileCache.printStats fc w)
  | call_traceStats => settle (FileCache.traceStats fc w)
  | call_maybeFreeMemory => settle (FileCache.maybeFreeMemory fc w)
  | call_getFileCacheKeysForTest =>
      settle (FileCache.getFileCacheKeysForTest fc w)
  end.

Fixpoint run_FileCacheOps (ops : list FileCacheOp) (fc : FileCache.t) (w : World)
    : FileCache.t * World :=
  match ops with
  | [] => (fc, w)
  | op :: rest =>
      let (fc', w') := run_FileCacheOp op fc w in
      run_FileCacheOps rest fc' w'
  end.

End FileCacheOps.

Section WithTypeScript.
Context `{TypeScript}.

(** The pin set that [FileCache.maybeFreeMemory] hands to [evict]. *)
Definition pins_of (fc : FileCache.t) : KeySet :=
  fun key => JSMap.has key (FileCache.lastDigests fc).

(** The state and the world in which [loadFile] goes on after the lookup. *)
Definition after_lookup (filePath : string) (loader : CachedFileLoader.t)
    (w : World) : CachedFileLoader.t * World :=
  let looked := FileCache.getCache filePath (CachedFileLoader.cache loader) w in
  (CachedFileLoader.set_cache (this_after looked) loader, world_after looked).

End WithTypeScript.

(** ** Whole sequences of operations *)

(** The store and the world after a whole sequence of operations. *)
Fixpoint run_CacheOps {V : Type} (ops : list (CacheOp V)) (c : Cache.t V)
    (w : World) : Cache.t V * World :=
  match ops with
  | [] => (c, w)
  | op :: rest =>
      let (c', w') := run_CacheOp op c w in
      run_CacheOps rest c' w'
  end.

Definition is_set {V : Type} (op : CacheOp V) : bool :=
  match op with
  | op_set _ _ => true
  | _ => false
  end.

Definition is_get {V : Type} (op : CacheOp V) : bool :=
  match op with
  | op_get _ _ => true
  | _ => false
  end.

(** How many operations of a kind a sequence holds. *)
Definition calls {V : Type} (kind : CacheOp V -> bool) (ops : list (CacheOp V))
    : Z :=
  Z.of_nat (length (filter kind ops)).

(** Bounds kept by every operation, for counts [gets] and [sets] of the
    [get] and [set] calls made so far. *)
Definition within_calls {V : Type} (gets sets : Z) (c : Cache.t V) : Prop :=
  0 <= hits (Cache.stats c)
  /\ hits (Cache.stats c) <= reads (Cache.stats c)
  /\ reads (Cache.stats c) <= gets
  /\ 0 <= evictions (Cache.stats c)
  /\ evictions (Cache.stats c) + JSMap.size (Cache.map c) <= sets.

(** The unpinned entries of a map: those [evict] may delete. *)
Definition unpinned {V : Type} (unevictableKeys : option KeySet) (m : JSMap.t V)
    : JSMap.t V :=
  filter (fun kv => negb (Cache.pinned unevictableKeys (fst kv))) m.

(** The pinned entries of a map. *)
Definition pinned_only {V : Type} (unevictableKeys : option KeySet)
    (m : JSMap.t V) : JSMap.t V :=
  filter (fun kv => Cache.pinned unevictableKeys (fst kv)) m.

(** The events of the disk and of the parser. *)
Definition reads_or_parses (e : Event) : bool :=
  match e with
  | fs_readFileSync _ => true
  | ts_createSourceFile _ _ _ => true
  | _ => false
  end.

(** What was read from the disk and parsed, in order. *)
Definition disk_work (w : World) : list Event :=
  filter reads_or_parses (trace w).

Section MoreWithTypeScript.
Context `{TypeScript}.

(** An entry that [updateCache] keeps: its path is not in the new digests,
    or it carries the digest they give. *)
Definition still_valid (digests : JSMap.t string)
    (kv : string * FileCache.SourceFileEntry) : bool :=
  match JSMap.get (fst kv) digests with
  | Some newDigest => String.eqb (FileCache.digest (snd kv)) newDigest
  | None => true
  end.

(** The calls that may replace or delete the entry of a path. *)
Definition replaces (path : string) (op : FileCacheOp) : bool :=
  match op with
  | call_updateCache _ => true
  | call_putCache filePath _ => String.eqb filePath path
  | _ => false
  end.

End MoreWithTypeScript.

(** ** A concrete parser, concrete caches and concrete worlds *)

Definition quiet_world : World :=
  mkWorld (fun _ => None) (fun _ => 0) (fun _ => 0) 0 [].

(** A stand-in for the TypeScript parser that records what it was given. *)
Definition recording_parser : TypeScript :=
  {| SourceFile := string * string * ScriptTarget;
     Program := string;
     createSourceFile := fun fileName sourceText langVer =>
                           (fileName, sourceText, langVer) |}.

Section Samples.
#[local] Existing Instance recording_parser.

Definition entry_a : FileCache.SourceFileEntry :=
  FileCache.mkEntry "d1" (createSourceFile "a.ts" "let a;" 1).

Definition entry_b : FileCache.SourceFileEntry :=
  FileCache.mkEntry "d2" (createSourceFile "b.ts" "let b;" 1).

Definition entry_c : FileCache.SourceFileEntry :=
  FileCache.mkEntry "d3" (createSourceFile "c.ts" "let c;" 1).

(** Two cached files, both expected by the current build. *)
Definition files_a_b : FileCache.t :=
  FileCache.mk
    (Cache.mk "file" [("/a.ts", entry_a); ("/b.ts", entry_b)] (mkStats 0 0 0))
    [("/a.ts", "d1"); ("/b.ts", "d2")] false DEFAULT_MAX_MEM_USAGE.

(** A store of odd size. *)
Definition store_of_three : Cache.t FileCache.SourceFileEntry :=
  Cache.mk "file" [("/a.ts", entry_a); ("/b.ts", entry_b); ("/c.ts", entry_c)]
    (mkStats 0 0 0).

(** A store of size one. *)
Definition store_of_one : Cache.t Program :=
  Cache.mk "program" [("//app:bin", "bin")] (mkStats 0 0 0).

Definition programs_and_files : ProgramAndFileCache.t :=
  ProgramAndFileCache.mk files_a_b
    (Cache.mk "program" [("//app:lib", "lib"); ("//app:bin", "bin")]
       (mkStats 0 0 0)).

(** A world whose disk holds [/a.ts] and whose heap readings, [2^31], are
    above the default limit. *)
Definition pressured_world : World :=
  mkWorld (fun filePath => if String.eqb filePath "/a.ts" then Some "let a;" else None)
    (fun _ => 2 ^ 31) (fun _ => 0) 0 [].

Definition digests_same : Digests :=
  digests_Map [("/a.ts", "d1"); ("/b.ts", "d2")].

Definition digests_changed : Digests :=
  digests_Map [("/a.ts", "d9"); ("/b.ts", "d2")].

Definition loader_a_b : CachedFileLoader.t := CachedFileLoader.constructor files_a_b.

(** A loader whose cache expects [/a.ts] under the empty digest. *)
Definition loader_empty_digest : CachedFileLoader.t :=
  CachedFileLoader.constructor
    (this_after (FileCache.updateCache (digests_Map [("/a.ts", "")])
                   FileCache.constructor quiet_world)).

Definition fresh_loader : CachedFileLoader.t :=
  CachedFileLoader.constructor FileCache.constructor.

End Samples.

Section MoreSamples.
#[local] Existing Instance recording_parser.

(** Two cached files that the current build does not expect. *)
Definition files_not_expected : FileCache.t :=
  FileCache.mk
    (Cache.mk "file" [("/a.ts", entry_a); ("/b.ts", entry_b)] (mkStats 0 0 0))
    [] false DEFAULT_MAX_MEM_USAGE.


End MoreSamples.

(** * Properties *)

(** ** Facts about [JSMap] *)

Section JSMapFacts.
Variable V : Type.
Implicit Types (m : JSMap.t V) (key k : string) (v : V).

Lemma is_key_true k (kv : string * V) : JSMap.is_key k kv = true <-> fst kv = k.
Proof. unfold JSMap.is_key. apply String.eqb_eq. Qed.

Lemma is_key_false k (kv : string * V) : JSMap.is_key k kv = false <-> fst kv <> k.
Proof. unfold JSMap.is_key. apply String.eqb_neq. Qed.

Lemma get_notin key m : ~ In key (JSMap.keys m) -> JSMap.get key m = None.
Proof.
  induction m as [|kv m IH]; simpl; intros Hn; [reflexivity|].
  destruct (JSMap.is_key key kv) eqn:E.
  - apply is_key_true in E. tauto.
  - apply IH. tauto.
Qed.

Lemma get_in key m : In key (JSMap.keys m) -> exists v, JSMap.get key m = Some v.
Proof.
  induction m as [|kv m IH]; simpl; intros Hin; [contradiction|].
  destruct (JSMap.is_key key kv) eqn:E.
  - eauto.
  - apply is_key_false in E. destruct Hin as [Hin|Hin]; [contradiction|auto].
Qed.

Lemma get_some_in key m v : JSMap.get key m = Some v -> In key (JSMap.keys m).
Proof.
  induction m as [|kv m IH]; simpl; [discriminate|].
  destruct (JSMap.is_key key kv) eqn:E.
  - apply is_key_true in E. auto.
  - auto.
Qed.

Lemma has_get key m :
  JSMap.has key m = match JSMap.get key m with Some _ => true | None => false end.
Proof.
  unfold JSMap.has.
  induction m as [|kv m IH]; simpl; [reflexivity|].
  destruct (JSMap.is_key key kv); simpl; auto.
Qed.

Lemma get_delete_same key m : JSMap.get key (JSMap.delete key m) = None.
Proof.
  unfold JSMap.delete.
  induction m as [|kv m IH]; simpl; [reflexivity|].
  destruct (JSMap.is_key key kv) eqn:E; simpl; [exact IH|].
  rewrite E. exact IH.
Qed.

Lemma get_delete_other key k m :
  k <> key -> JSMap.get key (JSMap.delete k m) = JSMap.get key m.
Proof.
  intros Hne. unfold JSMap.delete.
  induction m as [|kv m IH]; simpl; [reflexivity|].
  destruct (JSMap.is_key k kv) eqn:Ek; simpl.
  - apply is_key_true in Ek.
    destruct (JSMap.is_key key kv) eqn:E; [|exact IH].
    apply is_key_true in E. congruence.
  - destruct (JSMap.is_key key kv); [reflexivity|exact IH].
Qed.

Lemma delete_notin key m : ~ In key (JSMap.keys m) -> JSMap.delete key m = m.
Proof.
  unfold JSMap.delete.
  induction m as [|kv m IH]; simpl; intros Hn; [reflexivity|].
  destruct (JSMap.is_key key kv) eqn:E; simpl.
  - apply is_key_true in E. tauto.
  - f_equal. apply IH. tauto.
Qed.

Lemma delete_head key v m :
  JSMap.wf ((key, v) :: m) -> JSMap.delete key ((key, v) :: m) = m.
Proof.
  intros Hwf. inversion Hwf as [|? ? Hn Hnd]; subst.
  unfold JSMap.delete. simpl.
  replace (JSMap.is_key key (key, v)) with true
    by (symmetry; apply is_key_true; reflexivity).
  simpl. apply delete_notin. exact Hn.
Qed.

Lemma delete_length key m : (length (JSMap.delete key m) <= length m)%nat.
Proof. unfold JSMap.delete. apply filter_length_le. Qed.

Lemma set_after_delete key v m :
  JSMap.set key v (JSMap.delete key m) = JSMap.delete key m ++ [(key, v)].
Proof.
  unfold JSMap.set. rewrite has_get, get_delete_same. reflexivity.
Qed.

Lemma get_app_last key v m :
  ~ In key (JSMap.keys m) -> JSMap.get key (m ++ [(key, v)]) = Some v.
Proof.
  induction m as [|kv m IH]; simpl; intros Hn.
  - replace (JSMap.is_key key (key, v)) with true
      by (symmetry; apply is_key_true; reflexivity).
    reflexivity.
  - destruct (JSMap.is_key key kv) eqn:E.
    + apply is_key_true in E. tauto.
    + apply IH. tauto.
Qed.

Lemma wf_tail kv m : JSMap.wf (kv :: m) -> JSMap.wf m.
Proof. intros Hwf. inversion Hwf; assumption. Qed.

Lemma wf_skipn n m : JSMap.wf m -> JSMap.wf (skipn n m).
Proof.
  revert m. induction n as [|n IH]; intros m Hwf; [exact Hwf|].
  destruct m as [|kv m]; [exact Hwf|]. simpl. apply IH. eapply wf_tail; eauto.
Qed.

Lemma keys_skipn_in n m k : In k (JSMap.keys (skipn n m)) -> In k (JSMap.keys m).
Proof.
  revert m. induction n as [|n IH]; intros m; [auto|].
  destruct m as [|kv m]; simpl; auto.
Qed.

(** The newest entry survives the removal of any proper prefix. *)
Lemma get_skipn_last key v m n :
  ~ In key (JSMap.keys m) -> (n <= length m)%nat ->
  JSMap.get key (skipn n (m ++ [(key, v)])) = Some v.
Proof.
  revert m. induction n as [|n IH]; intros m Hn Hlen.
  - simpl. apply get_app_last. exact Hn.
  - destruct m as [|kv m]; simpl in *; [lia|].
    apply IH; [tauto | lia].
Qed.

Lemma keys_delete key m :
  JSMap.keys (JSMap.delete key m)
  = filter (fun k => negb (String.eqb k key)) (JSMap.keys m).
Proof.
  unfold JSMap.delete, JSMap.keys.
  induction m as [|kv m IH]; simpl; [reflexivity|].
  unfold JSMap.is_key at 1.
  destruct (String.eqb (fst kv) key); simpl; congruence.
Qed.

Lemma delete_not_key key m : ~ In key (JSMap.keys (JSMap.delete key m)).
Proof.
  rewrite keys_delete. intros Hin. apply filter_In in Hin.
  destruct Hin as [_ Hneq]. rewrite String.eqb_refl in Hneq. discriminate.
Qed.

Lemma wf_delete key m : JSMap.wf m -> JSMap.wf (JSMap.delete key m).
Proof.
  unfold JSMap.wf. rewrite keys_delete. apply NoDup_filter.
Qed.

Lemma wf_app_last key v m :
  JSMap.wf m -> ~ In key (JSMap.keys m) -> JSMap.wf (m ++ [(key, v)]).
Proof.
  unfold JSMap.wf, JSMap.keys. intros Hwf Hn.
  rewrite map_app. simpl.
  apply NoDup_app; [exact Hwf | repeat constructor; auto | ].
  intros a Ha [Hb|[]]. subst. contradiction.
Qed.

Lemma keys_replace key v m : JSMap.keys (JSMap.replace key v m) = JSMap.keys m.
Proof.
  unfold JSMap.keys.
  induction m as [|kv m IH]; simpl; [reflexivity|].
  destruct (JSMap.is_key key kv) eqn:E; simpl.
  - apply is_key_true in E. congruence.
  - f_equal. exact IH.
Qed.

Lemma has_false_notin key m : JSMap.has key m = false -> ~ In key (JSMap.keys m).
Proof.
  rewrite has_get. intros Hhas Hin.
  destruct (get_in key m Hin) as [v Hv]. rewrite Hv in Hhas. discriminate.
Qed.

(** The operations of a [Map] keep each key once. *)
Lemma wf_set key v m : JSMap.wf m -> JSMap.wf (JSMap.set key v m).
Proof.
  intros Hwf. unfold JSMap.set. destruct (JSMap.has key m) eqn:Hhas.
  - unfold JSMap.wf. rewrite keys_replace. exact Hwf.
  - apply wf_app_last; [exact Hwf | apply has_false_notin; exact Hhas].
Qed.

Lemma wf_of_entries (l : list (string * V)) : JSMap.wf (JSMap.of_entries l).
Proof.
  unfold JSMap.of_entries.
  assert (Hgen : forall m, JSMap.wf m ->
            JSMap.wf (fold_left (fun m kv => JSMap.set (fst kv) (snd kv) m) l m)).
  { induction l as [|kv l IH]; intros m Hwf; simpl; [exact Hwf|].
    apply IH. apply wf_set. exact Hwf. }
  apply Hgen. constructor.
Qed.

(** In a well-formed map the entry found for a key is the only one. *)
Lemma existsb_on_key key m (d : V) (f : V -> bool) :
  JSMap.wf m -> JSMap.get key m = Some d ->
  existsb (fun kv => JSMap.is_key key kv && f (snd kv)) m = f d.
Proof.
  induction m as [|kv m IH]; simpl; intros Hwf Hget; [discriminate|].
  inversion Hwf as [|? ? Hn Hnd]; subst.
  destruct (JSMap.is_key key kv) eqn:E; simpl.
  - injection Hget as <-.
    apply is_key_true in E.
    assert (Hnone : forallb (fun kv' => negb (JSMap.is_key key kv' && f (snd kv'))) m = true).
    { apply forallb_forall. intros kv' Hin.
      destruct (JSMap.is_key key kv') eqn:E'; [|reflexivity].
      apply is_key_true in E'. exfalso. apply Hn. rewrite E, <- E'.
      apply in_map. exact Hin. }
    destruct (existsb _ m) eqn:Ex; [|apply orb_false_r].
    apply existsb_exists in Ex. destruct Ex as [kv' [Hin Hkv']].
    rewrite forallb_forall in Hnone. specialize (Hnone kv' Hin).
    rewrite Hkv' in Hnone. discriminate.
  - apply IH; assumption.
Qed.

End JSMapFacts.

(** ** Facts about [Cache.evict] *)

Section EvictFacts.
Variable V : Type.
Implicit Types (m : JSMap.t V) (c : Cache.t V) (w : World).

Lemma Qeq_bool_zero_congr (q1 q2 : Q) :
  (q1 == q2)%Q -> Qeq_bool q1 0 = Qeq_bool q2 0.
Proof.
  intros Heq.
  destruct (Qeq_bool q1 0) eqn:E1, (Qeq_bool q2 0) eqn:E2; try reflexivity.
  - apply Qeq_bool_iff in E1. apply Qeq_bool_neq in E2.
    exfalso. apply E2. rewrite <- Heq. exact E1.
  - apply Qeq_bool_iff in E2. apply Qeq_bool_neq in E1.
    exfalso. apply E1. rewrite Heq. exact E2.
Qed.

Lemma half_of_size_zero m :
  Qeq_bool (inject_Z (JSMap.size m) / 2) 0 = true <-> m = [].
Proof.
  unfold JSMap.size. split.
  - intros E. apply Qeq_bool_iff in E. destruct m; [reflexivity|].
    exfalso. unfold Qeq, Qdiv, Qmult, Qinv, inject_Z in E. simpl in E. lia.
  - intros ->. reflexivity.
Qed.

(** Deleting only ever shrinks the map. *)
Lemma evict_loop_length pins keys q m :
  (length (Cache.evict_loop pins keys q m) <= length m)%nat.
Proof.
  revert q m. induction keys as [|key keys IH]; intros q m; simpl; [lia|].
  destruct (Qeq_bool q 0); [lia|].
  destruct (Cache.pinned pins key); [apply IH|].
  etransitivity; [apply IH | apply delete_length].
Qed.

(** With a whole number of keys to drop, the loop removes exactly that many
    of the oldest entries and then breaks. *)
Lemma evict_loop_whole m :
  JSMap.wf m -> forall (n : nat) (q : Q),
  (n <= length m)%nat -> (q == inject_Z (Z.of_nat n))%Q ->
  Cache.evict_loop None (JSMap.keys m) q m = skipn n m.
Proof.
  induction m as [|[k v] m IH]; intros Hwf n q Hlen Hq.
  - destruct n; reflexivity.
  - destruct n as [|n].
    + simpl. rewrite (Qeq_bool_zero_congr Hq). reflexivity.
    + assert (Hnz : Qeq_bool q 0 = false).
      { rewrite (Qeq_bool_zero_congr Hq). apply not_true_is_false. intros E.
        apply Qeq_bool_iff in E. unfold Qeq, inject_Z in E. simpl in E. lia. }
      change (Cache.evict_loop None (JSMap.keys ((k, v) :: m)) q ((k, v) :: m))
        with (if Qeq_bool q 0 then (k, v) :: m
              else Cache.evict_loop None (JSMap.keys m) (q - 1)
                     (JSMap.delete k ((k, v) :: m))).
      rewrite Hnz, (delete_head Hwf). simpl skipn.
      apply IH; [eapply wf_tail; eauto | simpl in Hlen; lia |].
      rewrite Hq, Nat2Z.inj_succ. unfold Z.succ. rewrite inject_Z_plus.
      unfold Qeq, Qminus, Qplus, Qopp, inject_Z. simpl. lia.
Qed.

(** With a number of keys to drop that is not whole, no test for zero ever
    succeeds and the loop removes every entry. *)
Lemma evict_loop_fraction m :
  JSMap.wf m -> forall q : Q,
  (forall n : nat, ~ (q == inject_Z (Z.of_nat n))%Q) ->
  Cache.evict_loop None (JSMap.keys m) q m = [].
Proof.
  induction m as [|[k v] m IH]; intros Hwf q Hq; [reflexivity|].
  assert (Hnz : Qeq_bool q 0 = false).
  { apply not_true_is_false. intros E. apply Qeq_bool_iff in E.
    apply (Hq 0%nat). exact E. }
  change (Cache.evict_loop None (JSMap.keys ((k, v) :: m)) q ((k, v) :: m))
    with (if Qeq_bool q 0 then (k, v) :: m
          else Cache.evict_loop None (JSMap.keys m) (q - 1)
                 (JSMap.delete k ((k, v) :: m))).
  rewrite Hnz, (delete_head Hwf).
  apply IH; [eapply wf_tail; eauto|].
  intros n Hn. apply (Hq (S n)).
  rewrite Nat2Z.inj_succ. unfold Z.succ. rewrite inject_Z_plus, <- Hn.
  unfold Qeq, Qminus, Qplus, Qopp, inject_Z. simpl. lia.
Qed.

Lemma half_even (k : nat) :
  (inject_Z (Z.of_nat (2 * k)) / 2 == inject_Z (Z.of_nat k))%Q.
Proof.
  unfold Qeq, Qdiv, Qmult, Qinv, inject_Z. simpl Qnum. simpl Qden. lia.
Qed.

Lemma half_odd (k n : nat) :
  ~ (inject_Z (Z.of_nat (2 * k + 1)) / 2 == inject_Z (Z.of_nat n))%Q.
Proof.
  unfold Qeq, Qdiv, Qmult, Qinv, inject_Z. simpl Qnum. simpl Qden. lia.
Qed.

(** A pinned key keeps its entry. *)
Lemma evict_loop_pinned (has : KeySet) K keys q m :
  has K = true ->
  JSMap.get K (Cache.evict_loop (Some has) keys q m) = JSMap.get K m.
Proof.
  intros HK. revert q m.
  induction keys as [|key keys IH]; intros q m; simpl; [reflexivity|].
  destruct (Qeq_bool q 0); [reflexivity|].
  destruct (has key) eqn:E; [apply IH|].
  rewrite IH. apply get_delete_other. intros ->. congruence.
Qed.

Lemma evict_loop_all_pinned (has : KeySet) keys q m :
  (forall k, In k keys -> has k = true) ->
  Cache.evict_loop (Some has) keys q m = m.
Proof.
  revert q m. induction keys as [|key keys IH]; intros q m Hall; simpl; [reflexivity|].
  destruct (Qeq_bool q 0); [reflexivity|].
  rewrite (Hall key) by (left; reflexivity).
  apply IH. intros k Hk. apply Hall. right. exact Hk.
Qed.

Lemma evict_loop_wf pins keys q m :
  JSMap.wf m -> JSMap.wf (Cache.evict_loop pins keys q m).
Proof.
  revert q m. induction keys as [|key keys IH]; intros q m Hwf; simpl; [exact Hwf|].
  destruct (Qeq_bool q 0); [exact Hwf|].
  destruct (Cache.pinned pins key); [apply IH; exact Hwf|].
  apply IH. apply wf_delete. exact Hwf.
Qed.

(** What one call of [evict] does to the store. *)
Lemma evict_map pins c w :
  Cache.map (this_after (Cache.evict pins c w))
  = Cache.evict_loop pins (JSMap.keys (Cache.map c))
      (inject_Z (JSMap.size (Cache.map c)) / 2) (Cache.map c).
Proof.
  unfold Cache.evict, bind, self, emit, modify, ret, this_after. simpl.
  destruct (Qeq_bool _ 0) eqn:E; simpl; [|reflexivity].
  apply half_of_size_zero in E. rewrite E. reflexivity.
Qed.

Lemma evict_result pins c w :
  result_of (Cache.evict pins c w)
  = Return (JSMap.size (Cache.map c)
            - JSMap.size (Cache.map (this_after (Cache.evict pins c w)))).
Proof.
  unfold Cache.evict, bind, self, emit, modify, ret, this_after, result_of. simpl.
  destruct (Qeq_bool _ 0) eqn:E; simpl; [|reflexivity].
  f_equal. lia.
Qed.

Lemma evict_stats pins c w :
  Cache.stats (this_after (Cache.evict pins c w))
  = mkStats (reads (Cache.stats c)) (hits (Cache.stats c))
      (evictions (Cache.stats c)
       + (JSMap.size (Cache.map c)
          - JSMap.size (Cache.map (this_after (Cache.evict pins c w))))).
Proof.
  unfold Cache.evict, bind, self, emit, modify, ret, this_after. simpl.
  destruct (Qeq_bool _ 0) eqn:E; simpl; [|reflexivity].
  destruct (Cache.stats c) as [r h e]. simpl. f_equal. lia.
Qed.

Lemma evict_name pins c w :
  Cache.name (this_after (Cache.evict pins c w)) = Cache.name c.
Proof.
  unfold Cache.evict, bind, self, emit, modify, ret, this_after. simpl.
  destruct (Qeq_bool _ 0); reflexivity.
Qed.

(** Without a pin set: a store of even size loses its older half, a store of
    odd size loses everything. *)
Lemma evict_unpinned_even c w (k : nat) :
  JSMap.wf (Cache.map c) -> length (Cache.map c) = (2 * k)%nat ->
  Cache.map (this_after (Cache.evict None c w)) = skipn k (Cache.map c)
  /\ result_of (Cache.evict None c w) = Return (Z.of_nat k).
Proof.
  intros Hwf Hk.
  assert (Hmap : Cache.map (this_after (Cache.evict None c w))
                 = skipn k (Cache.map c)).
  { rewrite evict_map. apply evict_loop_whole; [exact Hwf | lia |].
    unfold JSMap.size. rewrite Hk. apply half_even. }
  split; [exact Hmap|].
  rewrite evict_result, Hmap. f_equal. unfold JSMap.size.
  rewrite length_skipn. lia.
Qed.

Lemma evict_unpinned_odd c w (k : nat) :
  JSMap.wf (Cache.map c) -> length (Cache.map c) = (2 * k + 1)%nat ->
  Cache.map (this_after (Cache.evict None c w)) = []
  /\ result_of (Cache.evict None c w) = Return (Z.of_nat (2 * k + 1)).
Proof.
  intros Hwf Hk.
  assert (Hmap : Cache.map (this_after (Cache.evict None c w)) = []).
  { rewrite evict_map. apply evict_loop_fraction; [exact Hwf|].
    unfold JSMap.size. rewrite Hk. apply half_odd. }
  split; [exact Hmap|].
  rewrite evict_result, Hmap. f_equal. unfold JSMap.size. simpl length. lia.
Qed.

(** A store that is not empty always loses an entry when nothing is
    pinned. *)
Lemma evict_unpinned_drops c w :
  Cache.map c <> [] ->
  JSMap.size (Cache.map c)
  - JSMap.size (Cache.map (this_after (Cache.evict None c w))) > 0.
Proof.
  intros Hne. rewrite evict_map. unfold JSMap.size.
  destruct (Cache.map c) as [|[k v] m] eqn:Em; [congruence|].
  assert (Hnz : Qeq_bool (inject_Z (Z.of_nat (length ((k, v) :: m))) / 2) 0 = false).
  { apply not_true_is_false. intros E.
    apply (half_of_size_zero ((k, v) :: m)) in E. discriminate. }
  set (q := (inject_Z (Z.of_nat (length ((k, v) :: m))) / 2)%Q) in *.
  assert (Hhead : JSMap.delete k ((k, v) :: m) = JSMap.delete k m).
  { unfold JSMap.delete. simpl.
    replace (JSMap.is_key k (k, v)) with true
      by (symmetry; apply is_key_true; reflexivity).
    reflexivity. }
  change (Cache.evict_loop None (JSMap.keys ((k, v) :: m)) q ((k, v) :: m))
    with (if Qeq_bool q 0 then (k, v) :: m
          else Cache.evict_loop None (JSMap.keys m) (q - 1)
                 (JSMap.delete k ((k, v) :: m))).
  rewrite Hnz, Hhead.
  pose proof (evict_loop_length None (JSMap.keys m) (q - 1) (JSMap.delete k m))
    as Hlen.
  pose proof (delete_length k m) as Hdel.
  simpl length. lia.
Qed.

End EvictFacts.

(** ** Facts about [Cache.get] and the statistics *)

Section StatsFacts.
Variable V : Type.
Implicit Types (c : Cache.t V) (w : World).

Lemma get_result key updateCache c w :
  result_of (Cache.get key updateCache c w) = Return (JSMap.get key (Cache.map c)).
Proof.
  unfold Cache.get, Cache.traceStats, bind, self, emit, modify, ret, result_of.
  simpl. destruct updateCache; [|reflexivity].
  destruct (JSMap.get key (Cache.map c)); reflexivity.
Qed.

Lemma get_stats key updateCache c w :
  Cache.stats (this_after (Cache.get key updateCache c w))
  = mkStats (reads (Cache.stats c) + 1)
      (if hit updateCache key (Cache.map c)
       then hits (Cache.stats c) + 1 else hits (Cache.stats c))
      (evictions (Cache.stats c)).
Proof.
  unfold hit. rewrite has_get.
  unfold Cache.get, Cache.traceStats, bind, self, emit, modify, ret, this_after.
  simpl. destruct updateCache; [|reflexivity].
  destruct (JSMap.get key (Cache.map c)); reflexivity.
Qed.

Lemma get_map key updateCache c w :
  Cache.map (this_after (Cache.get key updateCache c w))
  = match JSMap.get key (Cache.map c) with
    | Some e =>
        if updateCache then JSMap.delete key (Cache.map c) ++ [(key, e)]
        else Cache.map c
    | None => Cache.map c
    end.
Proof.
  unfold Cache.get, Cache.traceStats, bind, self, emit, modify, ret, this_after.
  simpl. destruct updateCache; simpl.
  - destruct (JSMap.get key (Cache.map c)); simpl; [|reflexivity].
    apply set_after_delete.
  - destruct (JSMap.get key (Cache.map c)); reflexivity.
Qed.

Lemma get_name key updateCache c w :
  Cache.name (this_after (Cache.get key updateCache c w)) = Cache.name c.
Proof.
  unfold Cache.get, Cache.traceStats, bind, self, emit, modify, ret, this_after.
  simpl. destruct updateCache; [|reflexivity].
  destruct (JSMap.get key (Cache.map c)); reflexivity.
Qed.

Lemma run_CacheOp_hits_le_reads (op : CacheOp V) c w :
  hits_le_reads c -> hits_le_reads (fst (run_CacheOp op c w)).
Proof.
  unfold hits_le_reads. intros Hinv.
  destruct op as [key value|key updateCache|key|pins| | | | ];
    unfold run_CacheOp, settle, fst.
  - exact Hinv.
  - rewrite get_stats. simpl. destruct (hit _ _ _); lia.
  - exact Hinv.
  - rewrite evict_stats. simpl. exact Hinv.
  - exact Hinv.
  - simpl. lia.
  - exact Hinv.
  - exact Hinv.
Qed.

Lemma states_of_hits_le_reads (ops : list (CacheOp V)) c w :
  hits_le_reads c -> Forall hits_le_reads (states_of ops c w).
Proof.
  revert c w. induction ops as [|op ops IH]; intros c w Hinv; simpl.
  - constructor.
  - pose proof (run_CacheOp_hits_le_reads op w Hinv) as Hstep.
    destruct (run_CacheOp op c w) as [c' w']. simpl in Hstep.
    constructor; [exact Hstep | apply IH; exact Hstep].
Qed.

(** Every operation keeps the map of the store well formed, so the stores
    reached from [new Cache(name)] are. *)
Lemma run_CacheOp_wf (op : CacheOp V) c w :
  JSMap.wf (Cache.map c) -> JSMap.wf (Cache.map (fst (run_CacheOp op c w))).
Proof.
  intros Hwf.
  destruct op as [key value|key updateCache|key|pins| | | | ];
    unfold run_CacheOp, settle, fst.
  - apply wf_set. exact Hwf.
  - rewrite get_map. destruct (JSMap.get key (Cache.map c)); [|exact Hwf].
    destruct updateCache; [|exact Hwf].
    apply wf_app_last; [apply wf_delete; exact Hwf | apply delete_not_key].
  - apply wf_delete. exact Hwf.
  - rewrite evict_map. apply evict_loop_wf. exact Hwf.
  - exact Hwf.
  - exact Hwf.
  - exact Hwf.
  - exact Hwf.
Qed.

Lemma states_of_wf (ops : list (CacheOp V)) (name : string) w :
  Forall (fun c => JSMap.wf (Cache.map c))
    (states_of ops (Cache.constructor name) w).
Proof.
  assert (Hgen : forall c w', JSMap.wf (Cache.map c) ->
            Forall (fun c => JSMap.wf (Cache.map c)) (states_of ops c w')).
  { induction ops as [|op ops IH]; intros c w' Hwf; simpl; [constructor|].
    pose proof (run_CacheOp_wf op c w' Hwf) as Hstep.
    destruct (run_CacheOp op c w') as [c' w'']. simpl in Hstep.
    constructor; [exact Hstep | apply IH; exact Hstep]. }
  apply Hgen. constructor.
Qed.

End StatsFacts.

(** ** The claims about the bounded key-value store *)

(** C1 (halving, stated here as the code behaves). For a store without pinned
    keys, [evict()] removes the [N/2] least recently used entries and returns
    [N/2] only when the size [N] is even. When [N] is odd the number of keys
    to drop, [N / 2], is not whole: neither test for zero succeeds, every
    entry is removed and [N] is returned. In particular a store of size 1
    loses its entry, and a store of size 3 loses all three. *)
Theorem C1_evict_halves_even_sizes_only :
  forall (V : Type) (c : Cache.t V) (w : World),
    JSMap.wf (Cache.map c) ->
    let N := length (Cache.map c) in
    let r := Cache.evict None c w in
    (Nat.even N = true ->
       result_of r = Return (Z.of_nat (N / 2))
       /\ Cache.map (this_after r) = skipn (N / 2) (Cache.map c))
    /\ (Nat.odd N = true ->
       result_of r = Return (Z.of_nat N)
       /\ Cache.map (this_after r) = []).
Proof.
  intros V c w Hwf N r. subst r. split; intros Hpar.
  - apply Nat.even_spec in Hpar. destruct Hpar as [k Hk].
    assert (Hhalf : (N / 2 = k)%nat).
    { rewrite Hk, Nat.mul_comm. apply Nat.div_mul. discriminate. }
    rewrite Hhalf.
    destruct (evict_unpinned_even c w k Hwf Hk) as [Hmap Hres]. auto.
  - apply Nat.odd_spec in Hpar. destruct Hpar as [k Hk].
    destruct (evict_unpinned_odd c w k Hwf Hk) as [Hmap Hres].
    fold N in Hk. rewrite Hk. auto.
Qed.

(** C4 (pinning). [evict(pinSet)] leaves the entry of every key of the pin
    set in place, wherever it stands in the recency order; and when every
    key of the store is in the pin set it returns 0 and leaves the store as
    it was. *)
Theorem C4_evict_spares_pinned_keys :
  forall (V : Type) (c : Cache.t V) (w : World) (pinSet : KeySet),
    let r := Cache.evict (Some pinSet) c w in
    (forall K : string,
        pinSet K = true ->
        JSMap.get K (Cache.map (this_after r)) = JSMap.get K (Cache.map c))
    /\ ((forall k : string, In k (JSMap.keys (Cache.map c)) -> pinSet k = true) ->
        result_of r = Return 0 /\ this_after r = c).
Proof.
  intros V c w pinSet r. subst r. split.
  - intros K HK. rewrite evict_map. apply evict_loop_pinned. exact HK.
  - intros Hall.
    assert (Hmap : Cache.map (this_after (Cache.evict (Some pinSet) c w))
                   = Cache.map c).
    { rewrite evict_map. apply evict_loop_all_pinned. exact Hall. }
    split.
    + rewrite evict_result, Hmap. f_equal. lia.
    + pose proof (evict_stats (Some pinSet) c w) as Hstats.
      pose proof (evict_name (Some pinSet) c w) as Hname.
      rewrite Hmap in Hstats.
      destruct (this_after (Cache.evict (Some pinSet) c w)) as [n' m' s'].
      destruct c as [n m s]. simpl in *. subst.
      destruct s as [rd ht ev]. simpl. repeat f_equal. lia.
Qed.

(** C8 (statistics). After every step of every sequence of store operations
    [hits <= reads]; a [get] adds one to [reads] and adds one to [hits]
    exactly when it finds the key and was asked to update the recency order;
    [resetStats] zeroes the three counters and keeps the entries, so the
    [get] that follows finds what was stored and can be a hit. *)
Theorem C8_hits_never_exceed_reads :
  forall (V : Type) (name : string),
    (forall (ops : list (CacheOp V)) (w : World),
        Forall (fun c => hits (Cache.stats c) <= reads (Cache.stats c))
          (states_of ops (Cache.constructor name) w))
    /\ (forall (c : Cache.t V) (w : World) (key : string) (updateCache : bool),
        let c' := this_after (Cache.get key updateCache c w) in
        reads (Cache.stats c') = reads (Cache.stats c) + 1
        /\ hits (Cache.stats c')
           = (if updateCache && JSMap.has key (Cache.map c)
              then hits (Cache.stats c) + 1 else hits (Cache.stats c)))
    /\ (forall (c : Cache.t V) (w : World),
        let c' := this_after (Cache.resetStats c w) in
        Cache.stats c' = mkStats 0 0 0 /\ Cache.map c' = Cache.map c)
    /\ (forall (c : Cache.t V) (w w' : World) (key : string),
        let r := Cache.get key true (this_after (Cache.resetStats c w)) w' in
        result_of r = Return (JSMap.get key (Cache.map c))
        /\ hits (Cache.stats (this_after r))
           = (if JSMap.has key (Cache.map c) then 1 else 0)).
Proof.
  intros V name. split; [|split; [|split]].
  - intros ops w.
    apply (states_of_hits_le_reads ops w (c := Cache.constructor name)).
    unfold hits_le_reads. simpl. lia.
  - intros c w key updateCache c'. subst c'.
    rewrite get_stats. split; reflexivity.
  - intros c w c'. split; reflexivity.
  - intros c w w' key r. subst r. split.
    + rewrite get_result. reflexivity.
    + rewrite get_stats. unfold hit. simpl.
      destruct (JSMap.has key (Cache.map c)); reflexivity.
Qed.


(** ** Running methods step by step *)

Section MonadFacts.
Variables S T A B : Type.

Lemma bind_Return (m : M S A) (k : A -> M S B) (this : S) (w : World) (a : A) :
  result_of (m this w) = Return a ->
  bind m k this w = k a (this_after (m this w)) (world_after (m this w)).
Proof.
  unfold bind, result_of, this_after, world_after.
  destruct (m this w) as [[r this'] w']. simpl. intros ->. reflexivity.
Qed.

Lemma bind_Throw (m : M S A) (k : A -> M S B) (this : S) (w : World) (e : Error) :
  result_of (m this w) = Throw e ->
  bind m k this w = (Throw e, this_after (m this w), world_after (m this w)).
Proof.
  unfold bind, result_of, this_after, world_after.
  destruct (m this w) as [[r this'] w']. simpl. intros ->. reflexivity.
Qed.

Lemma zoom_run (field : S -> T) (assign : T -> S -> S) (m : M T A)
    (this : S) (w : World) :
  zoom field assign m this w
  = (result_of (m (field this) w),
     assign (this_after (m (field this) w)) this,
     world_after (m (field this) w)).
Proof.
  unfold zoom, result_of, this_after, world_after.
  destruct (m (field this) w) as [[r member] w']. reflexivity.
Qed.

End MonadFacts.


(** ** Facts about [FileCache] *)

Section FileCacheFacts.
Context `{TypeScript}.
Implicit Types (fc : FileCache.t) (w : World).

Lemma maybeFreeMemory_guarded fc w :
  FileCache.cannotEvict fc = true ->
  FileCache.maybeFreeMemory fc w = (Return 0, fc, tick w).
Proof.
  intros Hguard.
  unfold FileCache.maybeFreeMemory, FileCache.shouldFreeMemory,
    process_memoryUsage_heapUsed, bind, self, ret.
  simpl. rewrite Hguard, orb_true_r. reflexivity.
Qed.

Lemma maybeFreeMemory_idle fc w :
  heapUsed w (ticks w) <= FileCache.maxMemoryUsage fc ->
  FileCache.maybeFreeMemory fc w = (Return 0, fc, tick w).
Proof.
  intros Hidle.
  unfold FileCache.maybeFreeMemory, FileCache.shouldFreeMemory,
    process_memoryUsage_heapUsed, bind, self, ret.
  simpl. replace (heapUsed w (ticks w) >? FileCache.maxMemoryUsage fc) with false
    by (symmetry; rewrite Z.gtb_ltb; apply Z.ltb_ge; exact Hidle).
  reflexivity.
Qed.

(** Under memory pressure and without the guard, [maybeFreeMemory] is one
    eviction of the file store with [lastDigests] as pin set. *)
Lemma maybeFreeMemory_evicts fc w :
  FileCache.cannotEvict fc = false ->
  heapUsed w (ticks w) > FileCache.maxMemoryUsage fc ->
  let r := Cache.evict (Some (pins_of fc)) (FileCache.fileCache fc) (tick w) in
  let dropped := JSMap.size (Cache.map (FileCache.fileCache fc))
                 - JSMap.size (Cache.map (this_after r)) in
  FileCache.maybeFreeMemory fc w
  = (Return dropped,
     FileCache.mk (this_after r) (FileCache.lastDigests fc) (dropped =? 0)
       (FileCache.maxMemoryUsage fc),
     world_after r).
Proof.
  intros Hguard Hpressure r dropped.
  pose proof (evict_result (Some (pins_of fc)) (FileCache.fileCache fc) (tick w))
    as Hres.
  fold r in Hres. fold dropped in Hres.
  unfold FileCache.maybeFreeMemory.
  rewrite (bind_Return _ _ _ _ (a := true)); cycle 1.
  { unfold FileCache.shouldFreeMemory, process_memoryUsage_heapUsed, bind, self,
      ret, result_of. simpl. f_equal.
    rewrite Z.gtb_ltb. apply Z.ltb_lt. lia. }
  change (this_after (FileCache.shouldFreeMemory fc w)) with fc.
  change (world_after (FileCache.shouldFreeMemory fc w)) with (tick w).
  rewrite (bind_Return _ _ _ _ (a := fc)) by reflexivity.
  change (this_after (self fc (tick w))) with fc.
  change (world_after (self fc (tick w))) with (tick w).
  rewrite Hguard.
  change (negb true || false) with false. cbv iota.
  assert (Hzoom : FileCache.on_fileCache
                    (Cache.evict (Some (fun key => JSMap.has key (FileCache.lastDigests fc))))
                    fc (tick w)
                  = (Return dropped, FileCache.set_fileCache (this_after r) fc,
                     world_after r)).
  { unfold FileCache.on_fileCache. rewrite zoom_run.
    change (Cache.evict (Some (fun key => JSMap.has key (FileCache.lastDigests fc)))
              (FileCache.fileCache fc) (tick w)) with r.
    rewrite Hres. reflexivity. }
  rewrite (bind_Return _ _ _ _ (a := dropped)) by (rewrite Hzoom; reflexivity).
  rewrite Hzoom.
  unfold this_after at 1, world_after at 1. simpl fst. simpl snd.
  unfold bind, modify, ret, FileCache.set_cannotEvict, FileCache.set_fileCache.
  destruct (dropped =? 0) eqn:E; simpl; rewrite ?Hguard; reflexivity.
Qed.

Lemma updateCache_step_result filePath newDigest fc w :
  result_of (FileCache.updateCache_step filePath newDigest fc w) = Return tt.
Proof.
  unfold FileCache.updateCache_step, FileCache.on_fileCache, zoom, Cache.get,
    Cache.delete, bind, self, emit, modify, ret, result_of.
  simpl. destruct (JSMap.get filePath _) as [e|]; [|reflexivity].
  destruct (String.eqb (FileCache.digest e) newDigest); reflexivity.
Qed.

Lemma updateCache_step_fields filePath newDigest fc w :
  let fc' := this_after (FileCache.updateCache_step filePath newDigest fc w) in
  FileCache.lastDigests fc' = FileCache.lastDigests fc
  /\ FileCache.cannotEvict fc' = FileCache.cannotEvict fc
  /\ FileCache.maxMemoryUsage fc' = FileCache.maxMemoryUsage fc.
Proof.
  unfold FileCache.updateCache_step, FileCache.on_fileCache, zoom, Cache.get,
    Cache.delete, bind, self, emit, modify, ret, this_after.
  simpl. destruct (JSMap.get filePath _) as [e|]; [|auto].
  destruct (String.eqb (FileCache.digest e) newDigest); auto.
Qed.

(** One turn of the loop of [updateCache] deletes the entry of [filePath]
    when it carries another digest, and nothing else. *)
Lemma updateCache_step_map filePath newDigest fc w :
  Cache.map (FileCache.fileCache
               (this_after (FileCache.updateCache_step filePath newDigest fc w)))
  = match JSMap.get filePath (Cache.map (FileCache.fileCache fc)) with
    | Some e =>
        if String.eqb (FileCache.digest e) newDigest
        then Cache.map (FileCache.fileCache fc)
        else JSMap.delete filePath (Cache.map (FileCache.fileCache fc))
    | None => Cache.map (FileCache.fileCache fc)
    end.
Proof.
  unfold FileCache.updateCache_step, FileCache.on_fileCache, zoom, Cache.get,
    Cache.delete, bind, self, emit, modify, ret, this_after.
  simpl. destruct (JSMap.get filePath _) as [e|]; [|reflexivity].
  destruct (String.eqb (FileCache.digest e) newDigest); reflexivity.
Qed.

Lemma updateCache_loop_cons filePath newDigest rest fc w :
  FileCache.updateCache_loop ((filePath, newDigest) :: rest) fc w
  = FileCache.updateCache_loop rest
      (this_after (FileCache.updateCache_step filePath newDigest fc w))
      (world_after (FileCache.updateCache_step filePath newDigest fc w)).
Proof.
  simpl. apply bind_Return with (a := tt). apply updateCache_step_result.
Qed.

Lemma updateCache_loop_result entries fc w :
  result_of (FileCache.updateCache_loop entries fc w) = Return tt.
Proof.
  revert fc w. induction entries as [|[filePath newDigest] rest IH]; intros fc w.
  - reflexivity.
  - rewrite updateCache_loop_cons. apply IH.
Qed.

Lemma updateCache_loop_fields entries fc w :
  let fc' := this_after (FileCache.updateCache_loop entries fc w) in
  FileCache.lastDigests fc' = FileCache.lastDigests fc
  /\ FileCache.cannotEvict fc' = FileCache.cannotEvict fc
  /\ FileCache.maxMemoryUsage fc' = FileCache.maxMemoryUsage fc.
Proof.
  revert fc w. induction entries as [|[filePath newDigest] rest IH]; intros fc w.
  - simpl. auto.
  - rewrite updateCache_loop_cons.
    destruct (updateCache_step_fields filePath newDigest fc w) as (H1 & H2 & H3).
    destruct (IH (this_after (FileCache.updateCache_step filePath newDigest fc w))
                 (world_after (FileCache.updateCache_step filePath newDigest fc w)))
      as (I1 & I2 & I3).
    simpl. repeat split; congruence.
Qed.

(** The entry of a path survives the loop unless some entry of the digests
    gives that path another digest. *)
Lemma updateCache_loop_get entries P fc w :
  JSMap.get P (Cache.map (FileCache.fileCache
                 (this_after (FileCache.updateCache_loop entries fc w))))
  = match JSMap.get P (Cache.map (FileCache.fileCache fc)) with
    | Some e =>
        if existsb (fun kv => JSMap.is_key P kv
                              && negb (String.eqb (FileCache.digest e) (snd kv)))
             entries
        then None else Some e
    | None => None
    end.
Proof.
  revert fc w. induction entries as [|[filePath newDigest] rest IH]; intros fc w.
  - simpl. destruct (JSMap.get P _); reflexivity.
  - rewrite updateCache_loop_cons, IH, updateCache_step_map. clear IH.
    simpl existsb. unfold JSMap.is_key at 2. simpl fst. simpl snd.
    set (m := Cache.map (FileCache.fileCache fc)).
    destruct (String.eqb filePath P) eqn:EP.
    + apply String.eqb_eq in EP. subst filePath.
      destruct (JSMap.get P m) as [e|] eqn:Eget; [|rewrite Eget; reflexivity].
      destruct (String.eqb (FileCache.digest e) newDigest) eqn:Ed; simpl.
      * rewrite Eget. reflexivity.
      * rewrite get_delete_same. reflexivity.
    + apply String.eqb_neq in EP. simpl.
      destruct (JSMap.get filePath m) as [e'|].
      * destruct (String.eqb (FileCache.digest e') newDigest).
        -- reflexivity.
        -- rewrite (get_delete_other m EP). reflexivity.
      * reflexivity.
Qed.

Lemma updateCache_run digests fc w :
  FileCache.updateCache digests fc w
  = FileCache.updateCache_loop (JSMap.entries (as_Map digests))
      (FileCache.mk (FileCache.fileCache fc) (as_Map digests) false
         (FileCache.maxMemoryUsage fc))
      (emit_event (debug (updating_digests (as_Map digests))) w).
Proof. reflexivity. Qed.

Lemma getLastDigest_run filePath fc w :
  FileCache.getLastDigest filePath fc w
  = (match JSMap.get filePath (FileCache.lastDigests fc) with
     | Some digest =>
         if String.eqb digest ""
         then Throw (missing_input_digest filePath
                       (JSMap.keys (FileCache.lastDigests fc)))
         else Return digest
     | None => Throw (missing_input_digest filePath
                        (JSMap.keys (FileCache.lastDigests fc)))
     end, fc, w).
Proof.
  unfold FileCache.getLastDigest, bind, self, throw, ret. simpl.
  destruct (JSMap.get filePath _) as [d|]; [|reflexivity].
  destruct (String.eqb d ""); reflexivity.
Qed.

Lemma getCache_run filePath fc w :
  let r := Cache.get filePath true (FileCache.fileCache fc) w in
  FileCache.getCache filePath fc w
  = (Return (option_map FileCache.value
               (JSMap.get filePath (Cache.map (FileCache.fileCache fc)))),
     FileCache.set_fileCache (this_after r) fc,
     world_after r).
Proof.
  intros r. unfold FileCache.getCache, FileCache.on_fileCache.
  pose proof (get_result filePath true (FileCache.fileCache fc) w) as Hres.
  fold r in Hres.
  unfold bind. rewrite zoom_run. fold r. rewrite Hres.
  destruct (JSMap.get filePath _); reflexivity.
Qed.

Lemma inCache_run filePath fc w :
  let r := Cache.get filePath true (FileCache.fileCache fc) w in
  FileCache.inCache filePath fc w
  = (Return (JSMap.has filePath (Cache.map (FileCache.fileCache fc))),
     FileCache.set_fileCache (this_after r) fc,
     world_after r).
Proof.
  intros r. unfold FileCache.inCache, bind.
  rewrite getCache_run. fold r. rewrite has_get.
  destruct (JSMap.get filePath _); reflexivity.
Qed.

End FileCacheFacts.

(** ** The claims about the file-level cache *)

Section FileCacheClaims.
Context `{TypeScript}.

(** C2 (digest coherency). Let path [P] be cached under digest [D1].
    [updateCache] with a mapping that gives [P] the digest [D1] keeps the
    entry of [P]; with a mapping that gives [P] another digest [D2] it
    deletes the entry during the call itself, so that [getCache(P)]
    afterwards returns [undefined]. *)
Theorem C2_updateCache_digest_coherency :
  forall (fc : FileCache.t) (w : World) (P D1 : string)
         (e : FileCache.SourceFileEntry),
    JSMap.get P (Cache.map (FileCache.fileCache fc)) = Some e ->
    FileCache.digest e = D1 ->
    (forall digests : Digests,
        JSMap.wf (as_Map digests) ->
        JSMap.get P (as_Map digests) = Some D1 ->
        JSMap.get P (Cache.map (FileCache.fileCache
                       (this_after (FileCache.updateCache digests fc w))))
        = Some e)
    /\ (forall (digests : Digests) (D2 : string),
        JSMap.wf (as_Map digests) ->
        JSMap.get P (as_Map digests) = Some D2 ->
        D2 <> D1 ->
        let fc' := this_after (FileCache.updateCache digests fc w) in
        JSMap.get P (Cache.map (FileCache.fileCache fc')) = None
        /\ forall w' : World,
             result_of (FileCache.getCache P fc' w') = Return None).
Proof.
  intros fc w P D1 e Hcached HD1.
  assert (Hafter : forall (digests : Digests) (D : string),
             JSMap.wf (as_Map digests) ->
             JSMap.get P (as_Map digests) = Some D ->
             JSMap.get P (Cache.map (FileCache.fileCache
                            (this_after (FileCache.updateCache digests fc w))))
             = if String.eqb D1 D then Some e else None).
  { intros digests D Hwf Hreg.
    rewrite updateCache_run, updateCache_loop_get. simpl FileCache.fileCache.
    rewrite Hcached. unfold JSMap.entries.
    rewrite (existsb_on_key P
               (fun d => negb (String.eqb (FileCache.digest e) d)) Hwf Hreg).
    rewrite HD1. destruct (String.eqb D1 D); reflexivity. }
  split.
  - intros digests Hwf Hreg. rewrite (Hafter digests D1 Hwf Hreg).
    rewrite String.eqb_refl. reflexivity.
  - intros digests D2 Hwf Hreg Hneq fc'. subst fc'.
    assert (Hgone : JSMap.get P (Cache.map (FileCache.fileCache
                       (this_after (FileCache.updateCache digests fc w))))
                    = None).
    { rewrite (Hafter digests D2 Hwf Hreg).
      destruct (String.eqb D1 D2) eqn:E; [|reflexivity].
      apply String.eqb_eq in E. congruence. }
    split; [exact Hgone|].
    intros w'. rewrite getCache_run. unfold result_of. simpl.
    rewrite Hgone. reflexivity.
Qed.

(** C6, amended. [getLastDigest(path)] throws the missing-digest error if and
    only if the mapping given to the most recent [updateCache] has no digest
    for [path] or has the empty string for it, which the test [!digest]
    takes for a missing one; for every path registered with a digest that is
    not empty it returns that digest. *)
Theorem C6_getLastDigest_needs_nonempty_digest :
  forall (fc : FileCache.t) (w w' : World) (digests : Digests) (path : string),
    let registered := JSMap.get path (as_Map digests) in
    let r := FileCache.getLastDigest path
               (this_after (FileCache.updateCache digests fc w)) w' in
    ((exists err, result_of r = Throw err)
     <-> (registered = None \/ registered = Some ""))
    /\ (forall err, result_of r = Throw err ->
          err = missing_input_digest path (JSMap.keys (as_Map digests)))
    /\ (forall D : string,
          registered = Some D -> D <> "" -> result_of r = Return D).
Proof.
  intros fc w w' digests path registered r. subst r.
  rewrite getLastDigest_run. unfold result_of. simpl fst.
  rewrite updateCache_run.
  destruct (updateCache_loop_fields (JSMap.entries (as_Map digests))
              (FileCache.mk (FileCache.fileCache fc) (as_Map digests) false
                 (FileCache.maxMemoryUsage fc))
              (emit_event (debug (updating_digests (as_Map digests))) w))
    as (Hlast & _ & _).
  simpl in Hlast. rewrite Hlast. fold registered.
  destruct registered as [D|].
  - destruct (String.eqb D "") eqn:E.
    + apply String.eqb_eq in E. subst D. repeat split.
      * intros _. right. reflexivity.
      * intros _. eexists. reflexivity.
      * intros err Herr. congruence.
      * intros D HD Hne. congruence.
    + apply String.eqb_neq in E. repeat split.
      * intros [err Herr]. discriminate.
      * intros [Hn|Hs]; [discriminate | congruence].
      * intros err Herr. discriminate.
      * intros D' HD' _. congruence.
  - repeat split.
    + intros _. left. reflexivity.
    + intros _. eexists. reflexivity.
    + intros err Herr. congruence.
    + intros D HD. discriminate.
Qed.

(** Only [updateCache] lowers the guard. *)
Lemma run_FileCacheOp_keeps_guard (op : FileCacheOp) (fc : FileCache.t) (w : World) :
  FileCache.cannotEvict fc = true ->
  is_updateCache op = false ->
  FileCache.cannotEvict (fst (run_FileCacheOp op fc w)) = true.
Proof.
  intros Hguard Hop.
  destruct op; try discriminate Hop; unfold run_FileCacheOp, settle, fst.
  - unfold FileCache.setMaxCacheSize.
    destruct (maxCacheSize <? 0); [exact Hguard|].
    unfold bind at 1. unfold emit at 1. unfold bind at 1. unfold modify at 1.
    unfold bind at 1.
    rewrite maybeFreeMemory_guarded by exact Hguard. exact Hguard.
  - unfold FileCache.resetMaxCacheSize, FileCache.setMaxCacheSize.
    destruct (DEFAULT_MAX_MEM_USAGE <? 0); [exact Hguard|].
    unfold bind at 1. unfold emit at 1. unfold bind at 1. unfold modify at 1.
    unfold bind at 1.
    rewrite maybeFreeMemory_guarded by exact Hguard. exact Hguard.
  - rewrite getLastDigest_run. exact Hguard.
  - rewrite getCache_run. exact Hguard.
  - unfold FileCache.putCache. unfold bind at 1.
    rewrite maybeFreeMemory_guarded by exact Hguard. exact Hguard.
  - exact Hguard.
  - rewrite inCache_run. exact Hguard.
  - exact Hguard.
  - exact Hguard.
  - exact Hguard.
  - rewrite maybeFreeMemory_guarded by exact Hguard. exact Hguard.
  - exact Hguard.
Qed.

Lemma run_FileCacheOps_keep_guard (ops : list FileCacheOp) (fc : FileCache.t)
    (w : World) :
  FileCache.cannotEvict fc = true ->
  forallb (fun op => negb (is_updateCache op)) ops = true ->
  FileCache.cannotEvict (fst (run_FileCacheOps ops fc w)) = true.
Proof.
  revert fc w. induction ops as [|op ops IH]; intros fc w Hguard Hops.
  - exact Hguard.
  - simpl in Hops. apply andb_prop in Hops. destruct Hops as [Hop Hops].
    apply negb_true_iff in Hop.
    pose proof (run_FileCacheOp_keeps_guard op fc w Hguard Hop) as Hstep.
    simpl. destruct (run_FileCacheOp op fc w) as [fc' w'].
    apply IH; assumption.
Qed.

(** C5 (fixed-point guard). A [maybeFreeMemory] pass that evicts under memory
    pressure and removes no entry sets [cannotEvict]. From then on, through
    any calls other than [updateCache], the flag stays set and every
    [maybeFreeMemory] returns 0, leaves the file cache exactly as it was and
    emits nothing (no eviction is started, no counter is traced).
    [updateCache] always leaves [cannotEvict] false. *)
Theorem C5_cannotEvict_guard :
  forall (fc : FileCache.t) (w : World) (ops : list FileCacheOp),
    FileCache.cannotEvict fc = false ->
    heapUsed w (ticks w) > FileCache.maxMemoryUsage fc ->
    result_of (FileCache.maybeFreeMemory fc w) = Return 0 ->
    forallb (fun op => negb (is_updateCache op)) ops = true ->
    let fc1 := this_after (FileCache.maybeFreeMemory fc w) in
    let w1 := world_after (FileCache.maybeFreeMemory fc w) in
    let fc2 := fst (run_FileCacheOps ops fc1 w1) in
    FileCache.cannotEvict fc1 = true
    /\ FileCache.cannotEvict fc2 = true
    /\ (forall w2 : World,
          result_of (FileCache.maybeFreeMemory fc2 w2) = Return 0
          /\ this_after (FileCache.maybeFreeMemory fc2 w2) = fc2
          /\ trace (world_after (FileCache.maybeFreeMemory fc2 w2)) = trace w2)
    /\ (forall (any : FileCache.t) (digests : Digests) (w3 : World),
          FileCache.cannotEvict
            (this_after (FileCache.updateCache digests any w3)) = false).
Proof.
  intros fc w ops Hguard Hpressure Hzero Hops fc1 w1 fc2.
  assert (H1 : FileCache.cannotEvict fc1 = true).
  { subst fc1. revert Hzero.
    rewrite (maybeFreeMemory_evicts fc w Hguard Hpressure).
    unfold result_of, this_after. simpl. intros Hzero.
    injection Hzero as Hzero. rewrite Hzero. reflexivity. }
  assert (H2 : FileCache.cannotEvict fc2 = true).
  { subst fc2. apply run_FileCacheOps_keep_guard; assumption. }
  split; [exact H1|]. split; [exact H2|]. split.
  - intros w2. rewrite (maybeFreeMemory_guarded fc2 w2 H2).
    repeat split; reflexivity.
  - intros any digests w3. rewrite updateCache_run.
    destruct (updateCache_loop_fields (JSMap.entries (as_Map digests))
                (FileCache.mk (FileCache.fileCache any) (as_Map digests) false
                   (FileCache.maxMemoryUsage any))
                (emit_event (debug (updating_digests (as_Map digests))) w3))
      as (_ & Hflag & _).
    exact Hflag.
Qed.

(** C10 (lookups are observable). [getCache] and [inCache] have the same
    effects. Each call adds one to the [reads] counter of the file store;
    when the path is cached it also adds one to [hits] and moves the entry
    to the most recently used end. So when [path] is the oldest of at least
    two entries, [evict] would have removed it, whereas after [inCache(path)]
    the store is scanned from the next key [Q]: [Q] is removed, and [path]
    survives whenever the size is even. *)
Theorem C10_lookups_change_recency :
  forall (fc : FileCache.t) (w : World) (path : string),
    let store := FileCache.fileCache fc in
    let looked := FileCache.fileCache (this_after (FileCache.inCache path fc w)) in
    this_after (FileCache.inCache path fc w)
      = this_after (FileCache.getCache path fc w)
    /\ world_after (FileCache.inCache path fc w)
       = world_after (FileCache.getCache path fc w)
    /\ reads (Cache.stats looked) = reads (Cache.stats store) + 1
    /\ (forall e : FileCache.SourceFileEntry,
          JSMap.get path (Cache.map store) = Some e ->
          hits (Cache.stats looked) = hits (Cache.stats store) + 1
          /\ Cache.map looked = JSMap.delete path (Cache.map store) ++ [(path, e)])
    /\ (forall (e e' : FileCache.SourceFileEntry) (Q : string)
               (rest : JSMap.t FileCache.SourceFileEntry) (w' : World),
          Cache.map store = (path, e) :: (Q, e') :: rest ->
          JSMap.wf (Cache.map store) ->
          JSMap.keys (Cache.map looked) = Q :: JSMap.keys rest ++ [path]
          /\ JSMap.get path (Cache.map (this_after (Cache.evict None store w')))
             = None
          /\ JSMap.get Q (Cache.map (this_after (Cache.evict None looked w')))
             = None
          /\ (Nat.even (length (Cache.map store)) = true ->
              JSMap.get path (Cache.map (this_after (Cache.evict None looked w')))
              = Some e)).
Proof.
  intros fc w path store looked.
  assert (Hlooked : looked = this_after (Cache.get path true store w)).
  { subst looked. rewrite inCache_run. reflexivity. }
  split; [rewrite inCache_run, getCache_run; reflexivity|].
  split; [rewrite inCache_run, getCache_run; reflexivity|].
  split; [rewrite Hlooked, get_stats; reflexivity|].
  assert (Hhit : forall e, JSMap.get path (Cache.map store) = Some e ->
            hits (Cache.stats looked) = hits (Cache.stats store) + 1
            /\ Cache.map looked
               = JSMap.delete path (Cache.map store) ++ [(path, e)]).
  { intros e He. rewrite Hlooked, get_stats, get_map, He. unfold hit.
    rewrite has_get, He. split; reflexivity. }
  split; [exact Hhit|].
  intros e e' Q rest w' Hmap Hwf.
  assert (He : JSMap.get path (Cache.map store) = Some e).
  { rewrite Hmap. simpl.
    replace (JSMap.is_key path (path, e)) with true
      by (symmetry; apply is_key_true; reflexivity).
    reflexivity. }
  destruct (Hhit e He) as [_ Hmoved].
  assert (Hmoved' : Cache.map looked = (Q, e') :: rest ++ [(path, e)]).
  { rewrite Hmoved, Hmap. rewrite delete_head by (rewrite <- Hmap; exact Hwf).
    reflexivity. }
  rewrite Hmap in Hwf.
  assert (Hwf_tail : JSMap.wf ((Q, e') :: rest)) by (eapply wf_tail; eauto).
  assert (Hpath_fresh : ~ In path (JSMap.keys ((Q, e') :: rest))).
  { inversion Hwf; assumption. }
  assert (Hwf' : JSMap.wf (Cache.map looked)).
  { rewrite Hmoved'.
    change ((Q, e') :: rest ++ [(path, e)])
      with (((Q, e') :: rest) ++ [(path, e)]).
    apply wf_app_last; assumption. }
  assert (HQ_fresh : ~ In Q (JSMap.keys (rest ++ [(path, e)]))).
  { rewrite Hmoved' in Hwf'. inversion Hwf'; assumption. }
  assert (Hlen : length (Cache.map looked) = length (Cache.map store)).
  { rewrite Hmoved', Hmap. simpl. rewrite length_app. simpl. lia. }
  split.
  { rewrite Hmoved'. unfold JSMap.keys. simpl. rewrite map_app. reflexivity. }
  destruct (Nat.even (length (Cache.map store))) eqn:Epar.
  - apply Nat.even_spec in Epar. destruct Epar as [k Hk].
    assert (Hkpos : (1 <= k)%nat) by (rewrite Hmap in Hk; simpl in Hk; lia).
    destruct k as [|k]; [lia|].
    destruct (evict_unpinned_even store w' (S k)) as [Hm1 _];
      [rewrite Hmap; exact Hwf | exact Hk |].
    destruct (evict_unpinned_even looked w' (S k)) as [Hm2 _];
      [exact Hwf' | rewrite Hlen; exact Hk |].
    rewrite Hm1, Hm2, Hmap, Hmoved'. simpl skipn.
    split; [|split].
    + apply get_notin. intros Hin. apply Hpath_fresh.
      eapply keys_skipn_in. exact Hin.
    + apply get_notin. intros Hin. apply HQ_fresh.
      eapply keys_skipn_in. exact Hin.
    + intros _. apply get_skipn_last.
      * intros Hin. apply Hpath_fresh. right. exact Hin.
      * rewrite Hmap in Hk. simpl in Hk. lia.
  - assert (Hodd : Nat.odd (length (Cache.map store)) = true).
    { unfold Nat.odd. rewrite Epar. reflexivity. }
    apply Nat.odd_spec in Hodd. destruct Hodd as [k Hk].
    destruct (evict_unpinned_odd store w' k) as [Hm1 _];
      [rewrite Hmap; exact Hwf | exact Hk |].
    destruct (evict_unpinned_odd looked w' k) as [Hm2 _];
      [exact Hwf' | rewrite Hlen; exact Hk |].
    rewrite Hm1, Hm2. repeat split. discriminate.
Qed.

End FileCacheClaims.

(** ** The claim about the program-level cache *)

Section ProgramAndFileCacheClaims.
Context `{TypeScript}.

(** Under memory pressure the override evicts programs first, and goes on to
    the inherited file eviction only when no program was dropped. *)
Lemma ProgramAndFileCache_maybeFreeMemory_pressure
    (pfc : ProgramAndFileCache.t) (w : World) :
  heapUsed w (ticks w) > FileCache.maxMemoryUsage (ProgramAndFileCache.super pfc) ->
  let p := Cache.evict None (ProgramAndFileCache.programCache pfc) (tick w) in
  let dropped := JSMap.size (Cache.map (ProgramAndFileCache.programCache pfc))
                 - JSMap.size (Cache.map (this_after p)) in
  let evicted := ProgramAndFileCache.mk (ProgramAndFileCache.super pfc)
                   (this_after p) in
  ProgramAndFileCache.maybeFreeMemory pfc w
  = if dropped >? 0
    then (Return dropped, evicted, world_after p)
    else ProgramAndFileCache.on_super FileCache.maybeFreeMemory evicted
           (world_after p).
Proof.
  intros Hpressure p dropped evicted.
  pose proof (evict_result None (ProgramAndFileCache.programCache pfc) (tick w))
    as Hres.
  fold p in Hres. fold dropped in Hres.
  unfold ProgramAndFileCache.maybeFreeMemory.
  assert (Hshould : ProgramAndFileCache.on_super FileCache.shouldFreeMemory pfc w
                    = (Return true,
                       ProgramAndFileCache.mk (ProgramAndFileCache.super pfc)
                         (ProgramAndFileCache.programCache pfc),
                       tick w)).
  { unfold ProgramAndFileCache.on_super. rewrite zoom_run.
    unfold FileCache.shouldFreeMemory, process_memoryUsage_heapUsed, bind, self,
      ret, result_of, this_after, world_after. simpl.
    replace (heapUsed w (ticks w)
             >? FileCache.maxMemoryUsage (ProgramAndFileCache.super pfc))
      with true by (symmetry; rewrite Z.gtb_ltb; apply Z.ltb_lt; lia).
    reflexivity. }
  rewrite (bind_Return _ _ _ _ (a := true)) by (rewrite Hshould; reflexivity).
  rewrite Hshould. unfold this_after at 1, world_after at 1. simpl fst. simpl snd.
  change (negb true) with false. cbv iota.
  assert (Hevict : ProgramAndFileCache.on_programCache (Cache.evict None)
                     (ProgramAndFileCache.mk (ProgramAndFileCache.super pfc)
                        (ProgramAndFileCache.programCache pfc))
                     (tick w)
                   = (Return dropped, evicted, world_after p)).
  { unfold ProgramAndFileCache.on_programCache. rewrite zoom_run. simpl.
    fold p. rewrite Hres. reflexivity. }
  rewrite (bind_Return _ _ _ _ (a := dropped)) by (rewrite Hevict; reflexivity).
  rewrite Hevict. unfold this_after at 1, world_after at 1. simpl fst. simpl snd.
  destruct (dropped >? 0); reflexivity.
Qed.

(** C3 (programs before files). Under memory pressure [maybeFreeMemory]
    starts with the eviction of the program store. If that drops at least
    one entry, which it does whenever the program store is not empty, the
    call returns that count and stops there: the file cache is untouched
    and nothing further is read or emitted. The file cache is reached only
    when the program eviction dropped nothing, and then the inherited
    [maybeFreeMemory] runs after it. *)
Theorem C3_programs_are_evicted_before_files :
  forall (pfc : ProgramAndFileCache.t) (w : World),
    heapUsed w (ticks w)
      > FileCache.maxMemoryUsage (ProgramAndFileCache.super pfc) ->
    let p := Cache.evict None (ProgramAndFileCache.programCache pfc) (tick w) in
    let r := ProgramAndFileCache.maybeFreeMemory pfc w in
    ProgramAndFileCache.programCache (this_after r) = this_after p
    /\ (Cache.map (ProgramAndFileCache.programCache pfc) <> [] ->
        Cache.map (FileCache.fileCache (ProgramAndFileCache.super pfc)) <> [] ->
        exists dropped : Z,
          dropped > 0
          /\ result_of p = Return dropped
          /\ result_of r = Return dropped
          /\ ProgramAndFileCache.super (this_after r)
             = ProgramAndFileCache.super pfc
          /\ world_after r = world_after p)
    /\ (forall dropped : Z,
          result_of p = Return dropped -> dropped > 0 ->
          result_of r = Return dropped
          /\ ProgramAndFileCache.super (this_after r)
             = ProgramAndFileCache.super pfc
          /\ world_after r = world_after p)
    /\ (ProgramAndFileCache.super (this_after r) <> ProgramAndFileCache.super pfc
        \/ world_after r <> world_after p ->
        result_of p = Return 0)
    /\ (result_of p = Return 0 ->
        r = ProgramAndFileCache.on_super FileCache.maybeFreeMemory
              (ProgramAndFileCache.mk (ProgramAndFileCache.super pfc)
                 (this_after p))
              (world_after p)).
Proof.
  intros pfc w Hpressure p r.
  pose proof (ProgramAndFileCache_maybeFreeMemory_pressure pfc w Hpressure)
    as Hrun.
  cbv zeta in Hrun. fold p in Hrun. fold r in Hrun.
  pose proof (evict_result None (ProgramAndFileCache.programCache pfc) (tick w))
    as Hres.
  fold p in Hres.
  set (dropped := JSMap.size (Cache.map (ProgramAndFileCache.programCache pfc))
                  - JSMap.size (Cache.map (this_after p))) in *.
  assert (Hnonneg : 0 <= dropped).
  { subst dropped p. rewrite evict_map. unfold JSMap.size.
    pose proof (evict_loop_length None
                  (JSMap.keys (Cache.map (ProgramAndFileCache.programCache pfc)))
                  (inject_Z (Z.of_nat (length (Cache.map
                     (ProgramAndFileCache.programCache pfc)))) / 2)
                  (Cache.map (ProgramAndFileCache.programCache pfc))).
    lia. }
  assert (Hstop : dropped > 0 ->
            result_of r = Return dropped
            /\ ProgramAndFileCache.super (this_after r)
               = ProgramAndFileCache.super pfc
            /\ world_after r = world_after p).
  { intros Hpos. rewrite Hrun.
    replace (dropped >? 0) with true
      by (symmetry; rewrite Z.gtb_ltb; apply Z.ltb_lt; lia).
    repeat split; reflexivity. }
  split; [|split; [|split; [|split]]].
  - rewrite Hrun. destruct (dropped >? 0); [reflexivity|].
    unfold ProgramAndFileCache.on_super. rewrite zoom_run. reflexivity.
  - intros Hprograms _. exists dropped.
    assert (Hpos : dropped > 0).
    { subst dropped p. apply evict_unpinned_drops. exact Hprograms. }
    destruct (Hstop Hpos) as (R1 & R2 & R3). auto.
  - intros d Hd Hpos. rewrite Hres in Hd. injection Hd as <-.
    apply Hstop. exact Hpos.
  - intros Hmore. rewrite Hres. f_equal.
    destruct (Z_gt_le_dec dropped 0) as [Hpos|Hle]; [|lia].
    destruct (Hstop Hpos) as (_ & R2 & R3).
    destruct Hmore as [Hmore|Hmore]; contradiction.
  - intros Hnone. rewrite Hres in Hnone. injection Hnone as Hnone.
    rewrite Hrun, Hnone. reflexivity.
Qed.

End ProgramAndFileCacheClaims.

(** ** The claims about the file loaders *)

Section FileLoaderClaims.
Context `{TypeScript}.
Implicit Types (loader : CachedFileLoader.t) (w : World).

Lemma maybeFreeMemory_returns (fc : FileCache.t) w :
  exists dropped : Z, result_of (FileCache.maybeFreeMemory fc w) = Return dropped.
Proof.
  destruct (FileCache.cannotEvict fc) eqn:Hguard.
  - rewrite maybeFreeMemory_guarded by exact Hguard. eexists. reflexivity.
  - destruct (Z_gt_le_dec (heapUsed w (ticks w)) (FileCache.maxMemoryUsage fc))
      as [Hpressure|Hidle].
    + rewrite (maybeFreeMemory_evicts fc w Hguard Hpressure).
      eexists. reflexivity.
    + rewrite maybeFreeMemory_idle by exact Hidle. eexists. reflexivity.
Qed.

Lemma putCache_result filePath entry (fc : FileCache.t) w :
  result_of (FileCache.putCache filePath entry fc w) = Return tt.
Proof.
  destruct (maybeFreeMemory_returns fc w) as [dropped Hdropped].
  unfold FileCache.putCache.
  rewrite (bind_Return _ _ _ _ Hdropped). reflexivity.
Qed.

Lemma lookup_run filePath loader w :
  CachedFileLoader.on_cache (FileCache.getCache filePath) loader w
  = (Return (option_map FileCache.value
               (JSMap.get filePath
                  (Cache.map (FileCache.fileCache (CachedFileLoader.cache loader))))),
     fst (after_lookup filePath loader w),
     snd (after_lookup filePath loader w)).
Proof.
  unfold CachedFileLoader.on_cache, after_lookup. rewrite zoom_run.
  rewrite getCache_run. reflexivity.
Qed.

Lemma lookup_keeps_disk filePath loader w :
  disk (snd (after_lookup filePath loader w)) = disk w.
Proof.
  unfold after_lookup. rewrite getCache_run. unfold world_after. simpl.
  unfold Cache.get, Cache.traceStats, bind, self, emit, modify, ret. simpl.
  destruct (JSMap.get filePath _); reflexivity.
Qed.

Lemma lookup_keeps_lastDigests filePath loader w :
  FileCache.lastDigests (CachedFileLoader.cache (fst (after_lookup filePath loader w)))
  = FileCache.lastDigests (CachedFileLoader.cache loader).
Proof. unfold after_lookup. rewrite getCache_run. reflexivity. Qed.

Lemma lookup_miss_keeps_map filePath loader w :
  JSMap.get filePath
    (Cache.map (FileCache.fileCache (CachedFileLoader.cache loader))) = None ->
  Cache.map (FileCache.fileCache
               (CachedFileLoader.cache (fst (after_lookup filePath loader w))))
  = Cache.map (FileCache.fileCache (CachedFileLoader.cache loader)).
Proof.
  intros Hmiss. unfold after_lookup. rewrite getCache_run.
  unfold this_after at 1. simpl. rewrite get_map, Hmiss. reflexivity.
Qed.

Lemma loadFile_hit fileName filePath langVer loader w e :
  JSMap.get filePath
    (Cache.map (FileCache.fileCache (CachedFileLoader.cache loader))) = Some e ->
  result_of (CachedFileLoader.loadFile fileName filePath langVer loader w)
  = Return (FileCache.value e).
Proof.
  intros Hhit. unfold CachedFileLoader.loadFile.
  unfold bind at 1. rewrite lookup_run, Hhit. reflexivity.
Qed.

(** On a miss with an unreadable file, the error of the read comes out. *)
Lemma loadFile_miss_unreadable fileName filePath langVer loader w :
  JSMap.get filePath
    (Cache.map (FileCache.fileCache (CachedFileLoader.cache loader))) = None ->
  disk w filePath = None ->
  CachedFileLoader.loadFile fileName filePath langVer loader w
  = (Throw (ENOENT filePath),
     fst (after_lookup filePath loader w),
     emit_event (fs_readFileSync filePath)
       (tick (snd (after_lookup filePath loader w)))).
Proof.
  intros Hmiss Hdisk. unfold CachedFileLoader.loadFile.
  unfold bind at 1. rewrite lookup_run, Hmiss.
  cbv [option_map]. cbv beta iota.
  unfold bind at 1. unfold Date_now at 1.
  unfold bind at 1. unfold readFileSync at 1.
  change (disk (tick (snd (after_lookup filePath loader w))))
    with (disk (snd (after_lookup filePath loader w))).
  rewrite lookup_keeps_disk, Hdisk. reflexivity.
Qed.

(** On a miss with a readable file, the file is read and parsed, and then
    the digest is asked for. *)
Lemma loadFile_miss_readable fileName filePath langVer loader w sourceText :
  JSMap.get filePath
    (Cache.map (FileCache.fileCache (CachedFileLoader.cache loader))) = None ->
  disk w filePath = Some sourceText ->
  let parsed :=
    emit_event (ts_createSourceFile fileName sourceText langVer)
      (emit_event (fs_readFileSync filePath)
         (tick (snd (after_lookup filePath loader w)))) in
  let missing :=
    missing_input_digest filePath
      (JSMap.keys (FileCache.lastDigests (CachedFileLoader.cache loader))) in
  match JSMap.get filePath (FileCache.lastDigests (CachedFileLoader.cache loader)) with
  | Some digest =>
      if String.eqb digest ""
      then CachedFileLoader.loadFile fileName filePath langVer loader w
           = (Throw missing, fst (after_lookup filePath loader w), parsed)
      else result_of (CachedFileLoader.loadFile fileName filePath langVer loader w)
           = Return (createSourceFile fileName sourceText langVer)
  | None =>
      CachedFileLoader.loadFile fileName filePath langVer loader w
      = (Throw missing, fst (after_lookup filePath loader w), parsed)
  end.
Proof.
  intros Hmiss Hdisk parsed missing.
  assert (Hprefix :
    CachedFileLoader.loadFile fileName filePath langVer loader w
    = bind (CachedFileLoader.on_cache (FileCache.getLastDigest filePath))
        (fun digest =>
           let entry :=
             FileCache.mkEntry digest
               (createSourceFile fileName sourceText langVer) in
           readEnd <- Date_now ;;
           CachedFileLoader.on_cache (FileCache.putCache filePath entry) ;;
           modify (fun this =>
                     CachedFileLoader.mk (CachedFileLoader.cache this)
                       (CachedFileLoader.totalReadTimeMs this
                        + (readEnd
                           - dateNow (snd (after_lookup filePath loader w))
                               (ticks (snd (after_lookup filePath loader w)))))) ;;
           this <- self ;;
           emit (perfTrace_counter "file load time"
                   [("read", CachedFileLoader.totalReadTimeMs this)]) ;;
           emit perfTrace_snapshotMemoryUsage ;;
           ret (createSourceFile fileName sourceText langVer))
        (fst (after_lookup filePath loader w)) parsed).
  { unfold CachedFileLoader.loadFile.
    unfold bind at 1. rewrite lookup_run, Hmiss.
    cbv [option_map]. cbv beta iota.
    unfold bind at 1. unfold Date_now at 1.
    unfold bind at 1. unfold readFileSync at 1.
    change (disk (tick (snd (after_lookup filePath loader w))))
      with (disk (snd (after_lookup filePath loader w))).
    rewrite lookup_keeps_disk, Hdisk.
    unfold bind at 1. unfold ts_createSourceFile_call at 1.
    unfold bind at 1. unfold emit at 1. unfold ret at 1. fold parsed.
    reflexivity. }
  assert (Hdigest :
    CachedFileLoader.on_cache (FileCache.getLastDigest filePath)
      (fst (after_lookup filePath loader w)) parsed
    = (match JSMap.get filePath
               (FileCache.lastDigests (CachedFileLoader.cache loader)) with
       | Some digest =>
           if String.eqb digest "" then Throw missing else Return digest
       | None => Throw missing
       end, fst (after_lookup filePath loader w), parsed)).
  { unfold CachedFileLoader.on_cache.
    rewrite zoom_run, getLastDigest_run, lookup_keeps_lastDigests.
    reflexivity. }
  destruct (JSMap.get filePath
              (FileCache.lastDigests (CachedFileLoader.cache loader)))
    as [digest|].
  - destruct (String.eqb digest "").
    + rewrite Hprefix. unfold bind at 1. rewrite Hdigest. reflexivity.
    + rewrite Hprefix. unfold bind at 1. rewrite Hdigest.
      unfold bind at 1. unfold Date_now at 1.
      unfold bind at 1. unfold CachedFileLoader.on_cache at 1.
      rewrite zoom_run, putCache_result.
      reflexivity.
  - rewrite Hprefix. unfold bind at 1. rewrite Hdigest. reflexivity.
Qed.

Lemma UncachedFileLoader_loadFile_result fileName filePath langVer w :
  result_of (UncachedFileLoader.loadFile fileName filePath langVer tt w)
  = match disk w filePath with
    | Some sourceText => Return (createSourceFile fileName sourceText langVer)
    | None => Throw (ENOENT filePath)
    end.
Proof.
  unfold UncachedFileLoader.loadFile, ts_createSourceFile_call, readFileSync,
    bind, emit, ret, result_of.
  destruct (disk w filePath); reflexivity.
Qed.

(** C7, amended. The cached and the uncached [loadFile] have the same
    outcome (the same parsed file, or the same error of the read) for a path
    registered by [updateCache] with a digest that is not empty, provided
    that a cached entry of the path, if there is one, holds what parsing the
    current contents of the file under the same logical name and language
    version yields. *)
Theorem C7_cached_and_uncached_loadFile_agree :
  forall (loader : CachedFileLoader.t) (w : World)
         (fileName filePath : string) (langVer : ScriptTarget) (D : string),
    JSMap.get filePath (FileCache.lastDigests (CachedFileLoader.cache loader))
      = Some D ->
    D <> "" ->
    (forall e : FileCache.SourceFileEntry,
        JSMap.get filePath
          (Cache.map (FileCache.fileCache (CachedFileLoader.cache loader)))
          = Some e ->
        exists sourceText : string,
          disk w filePath = Some sourceText
          /\ FileCache.value e = createSourceFile fileName sourceText langVer) ->
    result_of (CachedFileLoader.loadFile fileName filePath langVer loader w)
    = result_of (UncachedFileLoader.loadFile fileName filePath langVer tt w).
Proof.
  intros loader w fileName filePath langVer D Hreg Hne Hfresh.
  rewrite UncachedFileLoader_loadFile_result.
  destruct (JSMap.get filePath
              (Cache.map (FileCache.fileCache (CachedFileLoader.cache loader))))
    as [e|] eqn:Hcached.
  - destruct (Hfresh e eq_refl) as (sourceText & Hdisk & Hvalue).
    rewrite (loadFile_hit fileName filePath langVer loader w Hcached).
    rewrite Hdisk, Hvalue. reflexivity.
  - destruct (disk w filePath) as [sourceText|] eqn:Hdisk.
    + pose proof (loadFile_miss_readable fileName filePath langVer loader w
                    Hcached Hdisk) as Hrun.
      cbv zeta in Hrun. rewrite Hreg in Hrun.
      replace (String.eqb D "") with false in Hrun
        by (symmetry; apply String.eqb_neq; exact Hne).
      exact Hrun.
    + rewrite (loadFile_miss_unreadable fileName filePath langVer loader w
                 Hcached Hdisk).
      reflexivity.
Qed.

(** C9, amended. When the cached [loadFile] is called for a path that has no
    cached entry and no digest in the current digest set, it first reads the
    file. If the read fails, its error comes out. If it succeeds, the text is
    parsed and only then does the call fail with the missing-digest error.
    Either way nothing is stored: the entries of the file store and the
    digest set are as before. *)
Theorem C9_loadFile_unregistered_path :
  forall (loader : CachedFileLoader.t) (w : World)
         (fileName filePath : string) (langVer : ScriptTarget),
    JSMap.get filePath
      (Cache.map (FileCache.fileCache (CachedFileLoader.cache loader))) = None ->
    JSMap.get filePath (FileCache.lastDigests (CachedFileLoader.cache loader))
      = None ->
    let r := CachedFileLoader.loadFile fileName filePath langVer loader w in
    let looked :=
      world_after (FileCache.getCache filePath (CachedFileLoader.cache loader) w) in
    (match disk w filePath with
     | Some sourceText =>
         result_of r
         = Throw (missing_input_digest filePath
                    (JSMap.keys (FileCache.lastDigests
                                   (CachedFileLoader.cache loader))))
         /\ trace (world_after r)
            = trace looked
              ++ [fs_readFileSync filePath;
                  ts_createSourceFile fileName sourceText langVer]
     | None =>
         result_of r = Throw (ENOENT filePath)
         /\ trace (world_after r) = trace looked ++ [fs_readFileSync filePath]
     end)
    /\ Cache.map (FileCache.fileCache (CachedFileLoader.cache (this_after r)))
       = Cache.map (FileCache.fileCache (CachedFileLoader.cache loader))
    /\ FileCache.lastDigests (CachedFileLoader.cache (this_after r))
       = FileCache.lastDigests (CachedFileLoader.cache loader).
Proof.
  intros loader w fileName filePath langVer Hmiss Hunreg r looked.
  assert (Hstate : this_after r = fst (after_lookup filePath loader w)
                   /\ match disk w filePath with
                      | Some sourceText =>
                          result_of r
                          = Throw (missing_input_digest filePath
                                     (JSMap.keys (FileCache.lastDigests
                                        (CachedFileLoader.cache loader))))
                          /\ trace (world_after r)
                             = trace looked
                               ++ [fs_readFileSync filePath;
                                   ts_createSourceFile fileName sourceText langVer]
                      | None =>
                          result_of r = Throw (ENOENT filePath)
                          /\ trace (world_after r)
                             = trace looked ++ [fs_readFileSync filePath]
                      end).
  { subst r looked.
    destruct (disk w filePath) as [sourceText|] eqn:Hdisk.
    - pose proof (loadFile_miss_readable fileName filePath langVer loader w
                    Hmiss Hdisk) as Hrun.
      cbv zeta in Hrun. rewrite Hunreg in Hrun. rewrite Hrun.
      unfold this_after, result_of, world_after, after_lookup. simpl.
      rewrite <- app_assoc. auto.
    - rewrite (loadFile_miss_unreadable fileName filePath langVer loader w
                 Hmiss Hdisk).
      unfold this_after, result_of, world_after, after_lookup. simpl. auto. }
  destruct Hstate as [Hthis Houtcome].
  split; [exact Houtcome|]. rewrite Hthis. split.
  - apply lookup_miss_keeps_map. exact Hmiss.
  - apply lookup_keeps_lastDigests.
Qed.

End FileLoaderClaims.

(** ** Further facts about [JSMap] *)

Section MoreJSMapFacts.
Variable V : Type.
Implicit Types (m : JSMap.t V) (key k : string) (v : V).

Lemma get_replace_same key v m :
  JSMap.has key m = true -> JSMap.get key (JSMap.replace key v m) = Some v.
Proof.
  unfold JSMap.has.
  induction m as [|kv m IH]; simpl; [discriminate|].
  destruct (JSMap.is_key key kv) eqn:E; simpl.
  - intros _. replace (JSMap.is_key key (key, v)) with true
      by (symmetry; apply is_key_true; reflexivity).
    reflexivity.
  - intros Hhas. rewrite E. apply IH. exact Hhas.
Qed.

Lemma get_replace_other key k v m :
  k <> key -> JSMap.get k (JSMap.replace key v m) = JSMap.get k m.
Proof.
  intros Hne.
  induction m as [|kv m IH]; simpl; [reflexivity|].
  destruct (JSMap.is_key key kv) eqn:E; simpl.
  - apply is_key_true in E.
    replace (JSMap.is_key k (key, v)) with false
      by (symmetry; apply is_key_false; simpl; congruence).
    replace (JSMap.is_key k kv) with false
      by (symmetry; apply is_key_false; congruence).
    reflexivity.
  - destruct (JSMap.is_key k kv); [reflexivity | exact IH].
Qed.

Lemma get_app_other key k v m :
  k <> key -> JSMap.get k (m ++ [(key, v)]) = JSMap.get k m.
Proof.
  intros Hne.
  induction m as [|kv m IH]; simpl.
  - replace (JSMap.is_key k (key, v)) with false
      by (symmetry; apply is_key_false; simpl; congruence).
    reflexivity.
  - destruct (JSMap.is_key k kv); [reflexivity | exact IH].
Qed.

Lemma get_set key k v m :
  JSMap.get k (JSMap.set key v m)
  = if String.eqb k key then Some v else JSMap.get k m.
Proof.
  unfold JSMap.set. destruct (String.eqb k key) eqn:E.
  - apply String.eqb_eq in E. subst k.
    destruct (JSMap.has key m) eqn:Hhas.
    + apply get_replace_same. exact Hhas.
    + apply get_app_last. apply has_false_notin. exact Hhas.
  - apply String.eqb_neq in E.
    destruct (JSMap.has key m).
    + apply get_replace_other. exact E.
    + apply get_app_other. exact E.
Qed.

Lemma keys_set key v m :
  JSMap.keys (JSMap.set key v m)
  = if JSMap.has key m then JSMap.keys m else JSMap.keys m ++ [key].
Proof.
  unfold JSMap.set. destruct (JSMap.has key m).
  - apply keys_replace.
  - unfold JSMap.keys. rewrite map_app. reflexivity.
Qed.

Lemma get_delete key k m :
  JSMap.get k (JSMap.delete key m)
  = if String.eqb k key then None else JSMap.get k m.
Proof.
  destruct (String.eqb k key) eqn:E.
  - apply String.eqb_eq in E. subst k. apply get_delete_same.
  - apply String.eqb_neq in E. apply get_delete_other. congruence.
Qed.

Lemma delete_app key m1 m2 :
  JSMap.delete key (m1 ++ m2) = JSMap.delete key m1 ++ JSMap.delete key m2.
Proof. unfold JSMap.delete. apply filter_app. Qed.

Lemma wf_app_r m1 m2 : JSMap.wf (m1 ++ m2) -> JSMap.wf m2.
Proof.
  unfold JSMap.wf, JSMap.keys. rewrite map_app.
  induction (List.map fst m1) as [|a l IH]; simpl; intros Hwf; [exact Hwf|].
  inversion Hwf; auto.
Qed.

Lemma wf_app_l_fresh m1 m2 k :
  JSMap.wf (m1 ++ m2) -> In k (JSMap.keys m2) -> ~ In k (JSMap.keys m1).
Proof.
  unfold JSMap.wf, JSMap.keys. rewrite map_app.
  induction (List.map fst m1) as [|a l IH]; simpl; intros Hwf Hin; [tauto|].
  inversion Hwf as [|? ? Hn Hnd]; subst. intros [Heq|Hl].
  - subst a. apply Hn. apply in_or_app. right. exact Hin.
  - exact (IH Hnd Hin Hl).
Qed.

End MoreJSMapFacts.

(** ** Further facts about [Cache.evict] *)

Section MoreEvictFacts.
Variable V : Type.
Implicit Types (m : JSMap.t V) (c : Cache.t V) (w : World).

Lemma evict_loop_step pins key keys (q : Q) m :
  Cache.evict_loop pins (key :: keys) q m
  = if Qeq_bool q 0 then m
    else if Cache.pinned pins key
         then Cache.evict_loop pins keys q m
         else Cache.evict_loop pins keys (q - 1) (JSMap.delete key m).
Proof. reflexivity. Qed.

(** Entries that the loop has gone past stay where they are. *)
Lemma evict_loop_past pins m : forall (past : JSMap.t V) (q : Q),
  JSMap.wf (past ++ m) ->
  Cache.evict_loop pins (JSMap.keys m) q (past ++ m)
  = past ++ Cache.evict_loop pins (JSMap.keys m) q m.
Proof.
  induction m as [|[k v] m IH]; intros past q Hwf; [reflexivity|].
  change (JSMap.keys ((k, v) :: m)) with (k :: JSMap.keys m).
  rewrite !evict_loop_step.
  destruct (Qeq_bool q 0); [reflexivity|].
  destruct (Cache.pinned pins k).
  - assert (Hwf_here : JSMap.wf ([(k, v)] ++ m)) by (apply (wf_app_r past); exact Hwf).
    assert (Hsplit : past ++ (k, v) :: m = (past ++ [(k, v)]) ++ m)
      by (rewrite <- app_assoc; reflexivity).
    rewrite Hsplit in Hwf. rewrite Hsplit.
    rewrite (IH (past ++ [(k, v)]) q Hwf).
    change ((k, v) :: m) with ([(k, v)] ++ m).
    rewrite (IH [(k, v)] q Hwf_here).
    rewrite <- app_assoc. reflexivity.
  - assert (Hfresh : ~ In k (JSMap.keys past)).
    { apply (wf_app_l_fresh past ((k, v) :: m) k Hwf). left. reflexivity. }
    assert (Hwf_here : JSMap.wf ((k, v) :: m)) by (apply (wf_app_r past); exact Hwf).
    rewrite delete_app, (delete_notin k past Hfresh), (delete_head Hwf_here).
    apply IH.
    unfold JSMap.wf, JSMap.keys in *. rewrite map_app in *.
    simpl in Hwf. apply NoDup_remove_1 in Hwf. exact Hwf.
Qed.

(** The loop on a well-formed map, read entry by entry. *)
Lemma evict_loop_cons pins k v m q :
  JSMap.wf ((k, v) :: m) ->
  Cache.evict_loop pins (JSMap.keys ((k, v) :: m)) q ((k, v) :: m)
  = if Qeq_bool q 0 then (k, v) :: m
    else if Cache.pinned pins k
         then (k, v) :: Cache.evict_loop pins (JSMap.keys m) q m
         else Cache.evict_loop pins (JSMap.keys m) (q - 1) m.
Proof.
  intros Hwf.
  change (JSMap.keys ((k, v) :: m)) with (k :: JSMap.keys m).
  rewrite evict_loop_step.
  destruct (Qeq_bool q 0); [reflexivity|].
  destruct (Cache.pinned pins k).
  - apply (evict_loop_past pins m [(k, v)] q Hwf).
  - rewrite (delete_head Hwf). reflexivity.
Qed.

(** With a whole number [j] of keys to drop: up to some point of the map the
    unpinned entries go, beyond it everything stays, and [min j u] entries
    are gone, [u] being the number of unpinned entries. *)
Lemma evict_loop_whole_pinned pins m :
  JSMap.wf m -> forall (j : nat) (q : Q),
  (q == inject_Z (Z.of_nat j))%Q ->
  let m' := Cache.evict_loop pins (JSMap.keys m) q m in
  (exists n : nat,
      (n <= length m)%nat
      /\ m' = pinned_only pins (firstn n m) ++ skipn n m)
  /\ (length m' + Nat.min j (length (unpinned pins m)) = length m)%nat.
Proof.
  induction m as [|[k v] m IH]; intros Hwf j q Hq m'.
  - subst m'. simpl. split; [exists 0%nat; split; [lia | reflexivity]|].
    rewrite Nat.min_0_r. reflexivity.
  - subst m'. rewrite (evict_loop_cons pins q Hwf).
    destruct j as [|j].
    + rewrite (Qeq_bool_zero_congr Hq). simpl Qeq_bool. cbv iota.
      split; [exists 0%nat; split; [simpl; lia | reflexivity]|].
      simpl. lia.
    + assert (Hnz : Qeq_bool q 0 = false).
      { rewrite (Qeq_bool_zero_congr Hq). apply not_true_is_false. intros E.
        apply Qeq_bool_iff in E. unfold Qeq, inject_Z in E. simpl in E. lia. }
      rewrite Hnz. unfold unpinned. simpl filter.
      destruct (Cache.pinned pins k) eqn:Hpin; simpl negb; cbv iota.
      * destruct (IH (wf_tail Hwf) (S j) q Hq) as [[n [Hn Hform]] Hcount].
        split.
        -- exists (S n). split; [simpl; lia|].
           unfold pinned_only. simpl firstn. simpl filter. simpl fst.
           rewrite Hpin. simpl skipn. rewrite Hform. reflexivity.
        -- simpl length. unfold unpinned in Hcount. lia.
      * assert (Hq' : (q - 1 == inject_Z (Z.of_nat j))%Q).
        { rewrite Hq, Nat2Z.inj_succ. unfold Z.succ. rewrite inject_Z_plus.
          unfold Qeq, Qminus, Qplus, Qopp, inject_Z. simpl. lia. }
        destruct (IH (wf_tail Hwf) j (q - 1)%Q Hq') as [[n [Hn Hform]] Hcount].
        split.
        -- exists (S n). split; [simpl; lia|].
           unfold pinned_only. simpl firstn. simpl filter. simpl fst.
           rewrite Hpin. simpl skipn. exact Hform.
        -- simpl length. unfold unpinned in Hcount. lia.
Qed.

(** With a number of keys to drop that is not whole, every unpinned entry
    goes. *)
Lemma evict_loop_fraction_pinned pins m :
  JSMap.wf m -> forall q : Q,
  (forall n : nat, ~ (q == inject_Z (Z.of_nat n))%Q) ->
  Cache.evict_loop pins (JSMap.keys m) q m = pinned_only pins m.
Proof.
  induction m as [|[k v] m IH]; intros Hwf q Hq; [reflexivity|].
  rewrite (evict_loop_cons pins q Hwf).
  assert (Hnz : Qeq_bool q 0 = false).
  { apply not_true_is_false. intros E. apply Qeq_bool_iff in E.
    apply (Hq 0%nat). exact E. }
  rewrite Hnz. unfold pinned_only. simpl filter. simpl fst.
  destruct (Cache.pinned pins k).
  - f_equal. apply IH; [eapply wf_tail; eauto | exact Hq].
  - apply IH; [eapply wf_tail; eauto|].
    intros n Hn. apply (Hq (S n)).
    rewrite Nat2Z.inj_succ. unfold Z.succ. rewrite inject_Z_plus, <- Hn.
    unfold Qeq, Qminus, Qplus, Qopp, inject_Z. simpl. lia.
Qed.

Lemma pinned_unpinned_length pins m :
  (length (pinned_only pins m) + length (unpinned pins m) = length m)%nat.
Proof.
  unfold pinned_only, unpinned.
  induction m as [|kv m IH]; simpl; [reflexivity|].
  destruct (Cache.pinned pins (fst kv)); simpl; lia.
Qed.

End MoreEvictFacts.

(** ** Further properties of the bounded key-value store *)

Section MoreCacheProperties.
Variable V : Type.
Implicit Types (m : JSMap.t V) (c : Cache.t V) (w : World).

Lemma length_set key (v : V) m :
  (length (JSMap.set key v m) <= length m + 1)%nat.
Proof.
  unfold JSMap.set. destruct (JSMap.has key m).
  - assert (Hlen : length (JSMap.replace key v m) = length m).
    { induction m as [|kv m IH]; simpl; [reflexivity|].
      destruct (JSMap.is_key key kv); simpl; congruence. }
    lia.
  - rewrite length_app. simpl. lia.
Qed.

Lemma delete_present_length key (e : V) m :
  JSMap.get key m = Some e -> (length (JSMap.delete key m) < length m)%nat.
Proof.
  unfold JSMap.delete.
  induction m as [|kv m IH]; simpl; [discriminate|].
  destruct (JSMap.is_key key kv) eqn:E; simpl.
  - intros _. pose proof (filter_length_le (fun kv => negb (JSMap.is_key key kv)) m).
    lia.
  - intros Hget. specialize (IH Hget). lia.
Qed.

(** X1 (write, then read).
    [set] stores the value under the key and changes no other key's value.
    A new key becomes the most recently used one; a key already present
    keeps its place in the recency order. The counters are not touched and
    nothing is emitted. *)
Theorem set_then_get :
  forall (c : Cache.t V) (w w' : World) (key k : string) (value : V)
         (updateCache : bool),
    let c1 := this_after (Cache.set key value c w) in
    result_of (Cache.get k updateCache c1 w')
      = Return (if String.eqb k key then Some value
                else JSMap.get k (Cache.map c))
    /\ JSMap.keys (Cache.map c1)
       = (if JSMap.has key (Cache.map c) then JSMap.keys (Cache.map c)
          else JSMap.keys (Cache.map c) ++ [key])
    /\ Cache.stats c1 = Cache.stats c
    /\ world_after (Cache.set key value c w) = w.
Proof.
  intros c w w' key k value updateCache c1. subst c1.
  split; [|split; [|split]].
  - rewrite get_result. f_equal. apply get_set.
  - apply keys_set.
  - reflexivity.
  - reflexivity.
Qed.

(** X2 (delete).
    After [delete(key)] a [get] of the key misses; every other key keeps its
    value and the recency order of the others is kept; the counters are not
    touched; deleting a key that is not there changes nothing. *)
Theorem delete_then_get :
  forall (c : Cache.t V) (w w' : World) (key k : string) (updateCache : bool),
    let c1 := this_after (Cache.delete key c w) in
    result_of (Cache.get k updateCache c1 w')
      = Return (if String.eqb k key then None else JSMap.get k (Cache.map c))
    /\ JSMap.keys (Cache.map c1)
       = filter (fun k' => negb (String.eqb k' key)) (JSMap.keys (Cache.map c))
    /\ Cache.stats c1 = Cache.stats c
    /\ (JSMap.has key (Cache.map c) = false -> c1 = c).
Proof.
  intros c w w' key k updateCache c1. subst c1.
  split; [|split; [|split]].
  - rewrite get_result. f_equal. apply get_delete.
  - apply keys_delete.
  - reflexivity.
  - intros Habsent. unfold Cache.delete, modify, this_after, Cache.with_map.
    simpl. rewrite (delete_notin key (Cache.map c))
      by (apply has_false_notin; exact Habsent).
    destruct c; reflexivity.
Qed.

(** X3 (what evict removes).
    What [evict] removes when keys are pinned. The entries that survive are,
    up to some point of the recency order, the pinned ones, and beyond it
    all of them, in their order. For an even size [N] the number removed is
    [min (N/2) u], where [u] is the number of unpinned entries; for an odd
    size every unpinned entry is removed. The count returned is added to
    the [evictions] counter; [reads] and [hits] are kept. *)
Theorem evict_with_pinned_keys :
  forall (c : Cache.t V) (w : World) (unevictableKeys : option KeySet),
    JSMap.wf (Cache.map c) ->
    let r := Cache.evict unevictableKeys c w in
    let m := Cache.map c in
    let m' := Cache.map (this_after r) in
    let u := length (unpinned unevictableKeys m) in
    (exists n : nat,
        (n <= length m)%nat
        /\ m' = pinned_only unevictableKeys (firstn n m) ++ skipn n m)
    /\ (Nat.even (length m) = true ->
        result_of r = Return (Z.of_nat (Nat.min (length m / 2) u)))
    /\ (Nat.odd (length m) = true ->
        m' = pinned_only unevictableKeys m
        /\ result_of r = Return (Z.of_nat u))
    /\ Cache.stats (this_after r)
       = mkStats (reads (Cache.stats c)) (hits (Cache.stats c))
           (evictions (Cache.stats c) + (JSMap.size m - JSMap.size m')).
Proof.
  intros c w pins Hwf r m m' u.
  assert (Hm' : m' = Cache.evict_loop pins (JSMap.keys m)
                       (inject_Z (JSMap.size m) / 2) m).
  { subst m' r m. apply evict_map. }
  assert (Hres : result_of r = Return (JSMap.size m - JSMap.size m')).
  { subst m' r m. apply evict_result. }
  assert (Hcases :
    (Nat.even (length m) = true ->
       (exists n : nat,
           (n <= length m)%nat
           /\ m' = pinned_only pins (firstn n m) ++ skipn n m)
       /\ (length m' + Nat.min (length m / 2) u = length m)%nat)
    /\ (Nat.odd (length m) = true -> m' = pinned_only pins m)).
  { split; intros Hpar.
    - apply Nat.even_spec in Hpar. destruct Hpar as [k Hk].
      assert (Hhalf : (length m / 2 = k)%nat).
      { rewrite Hk, Nat.mul_comm. apply Nat.div_mul. discriminate. }
      rewrite Hhalf, Hm'.
      apply (evict_loop_whole_pinned pins Hwf k).
      unfold JSMap.size. rewrite Hk. apply half_even.
    - apply Nat.odd_spec in Hpar. destruct Hpar as [k Hk].
      rewrite Hm'. apply (evict_loop_fraction_pinned pins Hwf).
      unfold JSMap.size. rewrite Hk. apply half_odd. }
  destruct Hcases as [Heven Hodd].
  split; [|split; [|split]].
  - destruct (Nat.even (length m)) eqn:Epar.
    + exact (proj1 (Heven eq_refl)).
    + exists (length m). split; [lia|].
      rewrite firstn_all, skipn_all, app_nil_r.
      apply Hodd. unfold Nat.odd. rewrite Epar. reflexivity.
  - intros Hpar. destruct (Heven Hpar) as [_ Hcount].
    rewrite Hres. f_equal. unfold JSMap.size. lia.
  - intros Hpar. split; [exact (Hodd Hpar)|].
    rewrite Hres, (Hodd Hpar). f_equal. unfold JSMap.size.
    pose proof (pinned_unpinned_length pins m). fold u in H. lia.
  - subst m' r m. apply evict_stats.
Qed.

Lemma run_CacheOp_within_calls (op : CacheOp V) c w (gets sets : Z) :
  within_calls gets sets c ->
  within_calls (gets + (if is_get op then 1 else 0))
    (sets + (if is_set op then 1 else 0)) (fst (run_CacheOp op c w)).
Proof.
  unfold within_calls. intros (H1 & H2 & H3 & H4 & H5).
  destruct op as [key value|key updateCache|key|pins| | | | ];
    unfold run_CacheOp, settle, fst, is_get, is_set.
  - simpl. pose proof (length_set key value (Cache.map c)).
    unfold JSMap.size in *. lia.
  - rewrite get_stats, get_map. simpl.
    assert (Hsize : JSMap.size
                      match JSMap.get key (Cache.map c) with
                      | Some e =>
                          if updateCache
                          then JSMap.delete key (Cache.map c) ++ [(key, e)]
                          else Cache.map c
                      | None => Cache.map c
                      end <= JSMap.size (Cache.map c)).
    { destruct (JSMap.get key (Cache.map c)) as [e|] eqn:Hget; [|lia].
      destruct updateCache; [|lia].
      pose proof (delete_present_length key (Cache.map c) Hget).
      unfold JSMap.size. rewrite length_app. simpl. lia. }
    destruct (hit updateCache key (Cache.map c)); lia.
  - simpl. pose proof (delete_length key (Cache.map c)).
    unfold JSMap.size in *. lia.
  - rewrite evict_stats. simpl.
    pose proof (evict_loop_length pins (JSMap.keys (Cache.map c))
                  (inject_Z (JSMap.size (Cache.map c)) / 2) (Cache.map c)).
    rewrite evict_map. unfold JSMap.size in *. lia.
  - change (this_after (Cache.keys c w)) with c.
    unfold JSMap.size in *. lia.
  - change (this_after (Cache.resetStats c w))
      with (Cache.with_stats (fun _ => mkStats 0 0 0) c).
    simpl. pose proof (Zle_0_nat (length (Cache.map c))).
    unfold JSMap.size in *. lia.
  - change (this_after (Cache.printStats c w)) with c.
    unfold JSMap.size in *. lia.
  - change (this_after (Cache.traceStats c w)) with c.
    unfold JSMap.size in *. lia.
Qed.

Lemma run_CacheOps_within_calls (ops : list (CacheOp V)) c w (gets sets : Z) :
  within_calls gets sets c ->
  within_calls (gets + calls (@is_get V) ops) (sets + calls (@is_set V) ops)
    (fst (run_CacheOps ops c w)).
Proof.
  revert c w gets sets.
  induction ops as [|op ops IH]; intros c w gets sets Hin.
  - unfold calls. simpl. rewrite !Z.add_0_r. exact Hin.
  - pose proof (run_CacheOp_within_calls op w Hin) as Hstep.
    simpl run_CacheOps. destruct (run_CacheOp op c w) as [c' w'].
    simpl in Hstep. specialize (IH c' w' _ _ Hstep).
    unfold calls in *. simpl filter.
    destruct (is_get op), (is_set op); simpl length;
      rewrite ?Nat2Z.inj_succ; unfold Z.succ;
      rewrite ?Z.add_0_r in IH;
      replace (gets + (Z.of_nat (length (filter (@is_get V) ops)) + 1))
        with (gets + 1 + Z.of_nat (length (filter (@is_get V) ops))) by lia;
      replace (sets + (Z.of_nat (length (filter (@is_set V) ops)) + 1))
        with (sets + 1 + Z.of_nat (length (filter (@is_set V) ops))) by lia;
      exact IH.
Qed.

(** X5 (counters).
    The counters of a store never run ahead of what was done to it. After
    any sequence of operations on a new store: the counters are not negative,
    [hits <= reads], [reads] is at most the number of [get] calls, and the
    evictions counted plus the entries still held are at most the number of
    [set] calls. *)
Theorem counters_within_calls :
  forall (name : string) (ops : list (CacheOp V)) (w : World),
    let c := fst (run_CacheOps ops (Cache.constructor name) w) in
    0 <= hits (Cache.stats c)
    /\ hits (Cache.stats c) <= reads (Cache.stats c)
    /\ reads (Cache.stats c) <= calls (@is_get V) ops
    /\ 0 <= evictions (Cache.stats c)
    /\ evictions (Cache.stats c) + JSMap.size (Cache.map c)
       <= calls (@is_set V) ops.
Proof.
  intros name ops w c. subst c.
  apply (run_CacheOps_within_calls ops (c := Cache.constructor name) w
           (gets := 0) (sets := 0)).
  unfold within_calls, Cache.constructor, JSMap.size, JSMap.empty. simpl. lia.
Qed.

End MoreCacheProperties.

(** ** Further facts about [FileCache] *)

Section MoreFileCacheFacts.
Context `{TypeScript}.
Implicit Types (fc : FileCache.t) (w : World).

Lemma filter_twice (A : Type) (f g : A -> bool) (l : list A) :
  filter f (filter g l) = filter (fun x => g x && f x) l.
Proof.
  induction l as [|a l IH]; simpl; [reflexivity|].
  destruct (g a); simpl; [|exact IH].
  destruct (f a); simpl; congruence.
Qed.

Lemma wf_filter (V : Type) (f : string * V -> bool) (m : JSMap.t V) :
  JSMap.wf m -> JSMap.wf (filter f m).
Proof.
  unfold JSMap.wf, JSMap.keys.
  induction m as [|kv m IH]; simpl; intros Hwf; [constructor|].
  inversion Hwf as [|? ? Hn Hnd]; subst.
  destruct (f kv); simpl; [|auto].
  constructor; [|auto].
  intros Hin. apply Hn. apply in_map_iff in Hin.
  destruct Hin as [x [Hx Hin]]. apply filter_In in Hin.
  apply in_map_iff. exists x. tauto.
Qed.

(** One turn of the loop of [updateCache], on a well-formed store, filters
    out the entry of the path when its digest differs. *)
Lemma updateCache_step_filter filePath newDigest fc w :
  JSMap.wf (Cache.map (FileCache.fileCache fc)) ->
  Cache.map (FileCache.fileCache
               (this_after (FileCache.updateCache_step filePath newDigest fc w)))
  = filter (fun kv => negb (JSMap.is_key filePath kv
                            && negb (String.eqb (FileCache.digest (snd kv))
                                       newDigest)))
      (Cache.map (FileCache.fileCache fc)).
Proof.
  rewrite updateCache_step_map.
  generalize (Cache.map (FileCache.fileCache fc)). intros m Hwf.
  induction m as [|[k e] m IH].
  - reflexivity.
  - simpl JSMap.get. simpl filter.
    destruct (JSMap.is_key filePath (k, e)) eqn:Ekey.
    + apply is_key_true in Ekey. simpl in Ekey. subst k. simpl snd.
      assert (Hrest : filter (fun kv => negb (JSMap.is_key filePath kv
                                && negb (String.eqb (FileCache.digest (snd kv))
                                           newDigest))) m = m).
      { inversion Hwf as [|? ? Hn Hnd]; subst.
        apply forallb_filter_id. apply forallb_forall. intros kv Hin.
        replace (JSMap.is_key filePath kv) with false; [reflexivity|].
        symmetry. apply is_key_false. intros Heq. apply Hn. rewrite <- Heq.
        apply in_map. exact Hin. }
      destruct (String.eqb (FileCache.digest e) newDigest); simpl.
      * rewrite Hrest. reflexivity.
      * replace (JSMap.is_key filePath (filePath, e)) with true
          by (symmetry; apply is_key_true; reflexivity).
        simpl negb. cbv iota. rewrite Hrest.
        apply delete_notin. inversion Hwf; assumption.
    + simpl negb. specialize (IH (wf_tail Hwf)).
      destruct (JSMap.get filePath m) as [e'|].
      * destruct (String.eqb (FileCache.digest e') newDigest).
        -- rewrite <- IH. reflexivity.
        -- rewrite <- IH. unfold JSMap.delete. simpl. rewrite Ekey. reflexivity.
      * rewrite <- IH. reflexivity.
Qed.

Lemma updateCache_step_stats filePath newDigest fc w :
  let c := FileCache.fileCache fc in
  let c' := FileCache.fileCache
              (this_after (FileCache.updateCache_step filePath newDigest fc w)) in
  Cache.stats c'
  = mkStats (reads (Cache.stats c) + 1) (hits (Cache.stats c))
      (evictions (Cache.stats c))
  /\ Cache.name c' = Cache.name c.
Proof.
  unfold FileCache.updateCache_step, FileCache.on_fileCache, zoom, Cache.get,
    Cache.delete, bind, self, emit, modify, ret, this_after.
  simpl. destruct (JSMap.get filePath _) as [e|]; [|auto].
  destruct (String.eqb (FileCache.digest e) newDigest); auto.
Qed.

(** The whole loop filters the store once per entry of the digests and
    counts one read for each. *)
Lemma updateCache_loop_filter entries : forall fc w,
  JSMap.wf (Cache.map (FileCache.fileCache fc)) ->
  let c := FileCache.fileCache fc in
  let c' := FileCache.fileCache
              (this_after (FileCache.updateCache_loop entries fc w)) in
  Cache.map c'
  = filter (fun kv =>
              forallb (fun pd => negb (JSMap.is_key (fst pd) kv
                                       && negb (String.eqb
                                                  (FileCache.digest (snd kv))
                                                  (snd pd))))
                entries)
      (Cache.map c)
  /\ Cache.stats c'
     = mkStats (reads (Cache.stats c) + Z.of_nat (length entries))
         (hits (Cache.stats c)) (evictions (Cache.stats c))
  /\ Cache.name c' = Cache.name c.
Proof.
  induction entries as [|[filePath newDigest] rest IH]; intros fc w Hwf c c'.
  - subst c c'. simpl FileCache.updateCache_loop.
    change (this_after (ret tt fc w)) with fc. split; [|split].
    + symmetry. apply forallb_filter_id. apply forallb_forall. reflexivity.
    + destruct (Cache.stats (FileCache.fileCache fc)). simpl. f_equal. lia.
    + reflexivity.
  - subst c c'. rewrite updateCache_loop_cons.
    pose proof (updateCache_step_filter filePath newDigest fc w Hwf) as Hstep.
    destruct (updateCache_step_stats filePath newDigest fc w) as [Hstats Hname].
    assert (Hwf' : JSMap.wf (Cache.map (FileCache.fileCache
                     (this_after (FileCache.updateCache_step filePath newDigest
                                    fc w))))).
    { rewrite Hstep. apply wf_filter. exact Hwf. }
    destruct (IH _ (world_after (FileCache.updateCache_step filePath newDigest
                                   fc w)) Hwf') as (I1 & I2 & I3).
    split; [|split].
    + rewrite I1, Hstep, filter_twice. reflexivity.
    + rewrite I2, Hstats. simpl. f_equal. lia.
    + congruence.
Qed.

(** Against well-formed digests, passing every turn of the loop is being
    [still_valid]. *)
Lemma passes_all_still_valid (digests : JSMap.t string)
    (kv : string * FileCache.SourceFileEntry) :
  JSMap.wf digests ->
  forallb (fun pd => negb (JSMap.is_key (fst pd) kv
                           && negb (String.eqb (FileCache.digest (snd kv))
                                      (snd pd))))
    digests
  = still_valid digests kv.
Proof.
  unfold still_valid.
  induction digests as [|[p d] digests IH]; intros Hwf; [reflexivity|].
  simpl forallb. simpl JSMap.get. simpl fst. simpl snd.
  unfold JSMap.is_key at 1. unfold JSMap.is_key at 2. simpl fst.
  rewrite (String.eqb_sym p (fst kv)).
  destruct (String.eqb (fst kv) p) eqn:E.
  - apply String.eqb_eq in E.
    destruct (String.eqb (FileCache.digest (snd kv)) d); simpl; [|reflexivity].
    apply forallb_forall. intros [p' d'] Hin.
    replace (JSMap.is_key (fst (p', d')) kv) with false; [reflexivity|].
    symmetry. apply is_key_false. simpl. intros Heq.
    unfold JSMap.wf, JSMap.keys in Hwf. simpl in Hwf.
    apply NoDup_cons_iff in Hwf. destruct Hwf as [Hn _]. apply Hn.
    replace p with (fst (p', d')) by (simpl; congruence).
    apply in_map. exact Hin.
  - simpl. apply IH. eapply wf_tail; eauto.
Qed.

(** [maybeFreeMemory] in one statement: what it returns and what it keeps. *)
Lemma maybeFreeMemory_effect fc w :
  let r := FileCache.maybeFreeMemory fc w in
  let c := FileCache.fileCache fc in
  let c' := FileCache.fileCache (this_after r) in
  let dropped := JSMap.size (Cache.map c) - JSMap.size (Cache.map c') in
  result_of r = Return dropped
  /\ 0 <= dropped
  /\ Cache.stats c'
     = mkStats (reads (Cache.stats c)) (hits (Cache.stats c))
         (evictions (Cache.stats c) + dropped)
  /\ Cache.name c' = Cache.name c
  /\ FileCache.lastDigests (this_after r) = FileCache.lastDigests fc
  /\ FileCache.maxMemoryUsage (this_after r) = FileCache.maxMemoryUsage fc
  /\ (forall path : string,
        JSMap.has path (FileCache.lastDigests fc) = true ->
        JSMap.get path (Cache.map c') = JSMap.get path (Cache.map c))
  /\ (JSMap.wf (Cache.map c) -> JSMap.wf (Cache.map c')).
Proof.
  intros r c c' dropped.
  assert (Hquiet : FileCache.maybeFreeMemory fc w = (Return 0, fc, tick w) ->
            result_of r = Return dropped
            /\ 0 <= dropped
            /\ Cache.stats c'
               = mkStats (reads (Cache.stats c)) (hits (Cache.stats c))
                   (evictions (Cache.stats c) + dropped)
            /\ Cache.name c' = Cache.name c
            /\ FileCache.lastDigests (this_after r) = FileCache.lastDigests fc
            /\ FileCache.maxMemoryUsage (this_after r) = FileCache.maxMemoryUsage fc
            /\ (forall path : string,
                  JSMap.has path (FileCache.lastDigests fc) = true ->
                  JSMap.get path (Cache.map c') = JSMap.get path (Cache.map c))
            /\ (JSMap.wf (Cache.map c) -> JSMap.wf (Cache.map c'))).
  { intros Hrun. subst dropped c' r c. rewrite Hrun.
    unfold result_of, this_after. simpl fst. simpl snd.
    replace (JSMap.size (Cache.map (FileCache.fileCache fc))
             - JSMap.size (Cache.map (FileCache.fileCache fc))) with 0 by lia.
    repeat split; auto; try lia.
    destruct (Cache.stats (FileCache.fileCache fc)). simpl. f_equal. lia. }
  destruct (FileCache.cannotEvict fc) eqn:Hguard.
  { apply Hquiet. apply maybeFreeMemory_guarded. exact Hguard. }
  destruct (Z_gt_le_dec (heapUsed w (ticks w)) (FileCache.maxMemoryUsage fc))
    as [Hpressure|Hidle].
  2: { apply Hquiet. apply maybeFreeMemory_idle. exact Hidle. }
  pose proof (maybeFreeMemory_evicts fc w Hguard Hpressure) as Hrun.
  cbv zeta in Hrun.
  subst dropped c' r c. rewrite Hrun.
  unfold result_of, this_after. simpl fst. simpl snd.
  simpl FileCache.fileCache. simpl FileCache.lastDigests.
  simpl FileCache.maxMemoryUsage.
  set (e := Cache.evict (Some (pins_of fc)) (FileCache.fileCache fc) (tick w)).
  change (snd (fst e)) with (this_after e).
  split; [reflexivity|]. split.
  { subst e. rewrite evict_map. unfold JSMap.size.
    pose proof (evict_loop_length (Some (pins_of fc))
                  (JSMap.keys (Cache.map (FileCache.fileCache fc)))
                  (inject_Z (Z.of_nat (length (Cache.map (FileCache.fileCache fc)))) / 2)
                  (Cache.map (FileCache.fileCache fc))).
    lia. }
  split; [subst e; apply evict_stats|].
  split; [subst e; apply evict_name|].
  split; [reflexivity|]. split; [reflexivity|]. split.
  - intros path Hknown. subst e. rewrite evict_map.
    apply evict_loop_pinned. exact Hknown.
  - intros Hwf. subst e. rewrite evict_map. apply evict_loop_wf. exact Hwf.
Qed.

(** [putCache] is [maybeFreeMemory] and then the insertion. *)
Lemma putCache_run filePath entry fc w :
  let r := FileCache.maybeFreeMemory fc w in
  let dropped := JSMap.size (Cache.map (FileCache.fileCache fc))
                 - JSMap.size (Cache.map (FileCache.fileCache (this_after r))) in
  FileCache.putCache filePath entry fc w
  = (Return tt,
     FileCache.set_fileCache
       (Cache.with_map (JSMap.set filePath entry)
          (FileCache.fileCache (this_after r)))
       (this_after r),
     emit_event (debug (Loaded_file filePath dropped)) (world_after r)).
Proof.
  intros r dropped.
  destruct (maybeFreeMemory_effect fc w) as [Hres _].
  fold r in Hres. fold dropped in Hres.
  unfold FileCache.putCache.
  rewrite (bind_Return _ _ _ _ Hres). fold r.
  reflexivity.
Qed.

(** Without pinned keys among those scanned, the loop runs as without a
    pin set. *)
Lemma evict_loop_none_pinned (V : Type) (pins : option KeySet) keys (q : Q)
    (m : JSMap.t V) :
  (forall k, In k keys -> Cache.pinned pins k = false) ->
  Cache.evict_loop pins keys q m = Cache.evict_loop None keys q m.
Proof.
  revert q m. induction keys as [|key keys IH]; intros q m Hnone; [reflexivity|].
  rewrite !evict_loop_step. rewrite (Hnone key) by (left; reflexivity).
  simpl Cache.pinned.
  destruct (Qeq_bool q 0); [reflexivity|].
  apply IH. intros k Hk. apply Hnone. right. exact Hk.
Qed.

(** Moving an entry to the newest end changes no lookup. *)
Lemma get_after_touch (V : Type) key path (e : V) (m : JSMap.t V) :
  JSMap.get key m = Some e ->
  JSMap.get path (JSMap.delete key m ++ [(key, e)]) = JSMap.get path m.
Proof.
  intros Hget. destruct (String.eqb path key) eqn:E.
  - apply String.eqb_eq in E. subst path.
    rewrite get_app_last by apply delete_not_key. congruence.
  - apply String.eqb_neq in E.
    rewrite get_app_other by exact E.
    apply get_delete_other. congruence.
Qed.


(** [setMaxCacheSize] with an acceptable size is the new limit and then
    [maybeFreeMemory]. *)
Lemma setMaxCacheSize_run maxCacheSize fc w :
  0 <= maxCacheSize ->
  let r := FileCache.maybeFreeMemory
             (FileCache.set_maxMemoryUsage maxCacheSize fc)
             (emit_event
                (debug (Cache_max_size_is (Z.shiftr (ToInt32 maxCacheSize) 20)))
                w) in
  FileCache.setMaxCacheSize maxCacheSize fc w
  = (Return tt, this_after r, world_after r).
Proof.
  intros Hpos r.
  destruct (maybeFreeMemory_effect
              (FileCache.set_maxMemoryUsage maxCacheSize fc)
              (emit_event
                 (debug (Cache_max_size_is (Z.shiftr (ToInt32 maxCacheSize) 20)))
                 w)) as [Hres _].
  fold r in Hres.
  unfold FileCache.setMaxCacheSize.
  replace (maxCacheSize <? 0) with false by (symmetry; apply Z.ltb_ge; exact Hpos).
  rewrite (bind_Return _ _ _ _ (a := tt)) by reflexivity.
  change (this_after (emit (debug (Cache_max_size_is
                                     (Z.shiftr (ToInt32 maxCacheSize) 20))) fc w))
    with fc.
  change (world_after (emit (debug (Cache_max_size_is
                                      (Z.shiftr (ToInt32 maxCacheSize) 20))) fc w))
    with (emit_event
            (debug (Cache_max_size_is (Z.shiftr (ToInt32 maxCacheSize) 20))) w).
  rewrite (bind_Return _ _ _ _ (a := tt)) by reflexivity.
  set (w1 := emit_event _ w) in *.
  change (this_after (modify (FileCache.set_maxMemoryUsage maxCacheSize) fc w1))
    with (FileCache.set_maxMemoryUsage maxCacheSize fc).
  change (world_after (modify (FileCache.set_maxMemoryUsage maxCacheSize) fc w1))
    with w1.
  rewrite (bind_Return _ _ _ _ Hres).
  reflexivity.
Qed.

End MoreFileCacheFacts.

(** ** Further properties of the file-level cache *)

Section MoreFileCacheProperties.
Context `{TypeScript}.
Implicit Types (fc : FileCache.t) (w : World).

(** X6 (what updateCache keeps).
    [updateCache] removes from the file store exactly the entries whose path
    is in the new digests with another digest; the entries kept stay in their
    recency order, also those of paths the new digests do not mention. The
    call counts one read per path of the digests and no hit, replaces
    [lastDigests], lowers the guard and returns normally. *)
Theorem updateCache_keeps_the_valid_entries :
  forall (fc : FileCache.t) (w : World) (digests : Digests),
    JSMap.wf (Cache.map (FileCache.fileCache fc)) ->
    JSMap.wf (as_Map digests) ->
    let r := FileCache.updateCache digests fc w in
    let c := FileCache.fileCache fc in
    let c' := FileCache.fileCache (this_after r) in
    result_of r = Return tt
    /\ Cache.map c' = filter (still_valid (as_Map digests)) (Cache.map c)
    /\ Cache.stats c'
       = mkStats (reads (Cache.stats c) + JSMap.size (as_Map digests))
           (hits (Cache.stats c)) (evictions (Cache.stats c))
    /\ FileCache.lastDigests (this_after r) = as_Map digests
    /\ FileCache.cannotEvict (this_after r) = false
    /\ FileCache.maxMemoryUsage (this_after r) = FileCache.maxMemoryUsage fc.
Proof.
  intros fc w digests Hwf Hwfd r c c'. subst r c c'.
  rewrite updateCache_run.
  set (start := FileCache.mk (FileCache.fileCache fc) (as_Map digests) false
                  (FileCache.maxMemoryUsage fc)).
  set (w1 := emit_event (debug (updating_digests (as_Map digests))) w).
  destruct (updateCache_loop_filter (JSMap.entries (as_Map digests)) start w1 Hwf)
    as (Hmap & Hstats & _).
  destruct (updateCache_loop_fields (JSMap.entries (as_Map digests)) start w1)
    as (Hlast & Hflag & Hmax).
  split; [apply updateCache_loop_result|].
  split.
  { rewrite Hmap. simpl FileCache.fileCache. unfold JSMap.entries.
    apply filter_ext. intros kv. apply passes_all_still_valid. exact Hwfd. }
  split; [exact Hstats|].
  split; [exact Hlast|]. split; [exact Hflag | exact Hmax].
Qed.

(** X8 (the memory limit).
    [setMaxCacheSize] checks its argument before it changes anything: with a
    negative size it throws and the cache and the world are as before. With
    any other size it returns normally, the limit is the size given, the
    digests are kept and no cached known input is lost in the memory check
    that follows. [resetMaxCacheSize] never throws and sets the limit to
    [2^30]. *)
Theorem setMaxCacheSize_checks_first :
  forall (fc : FileCache.t) (w : World) (maxCacheSize : Z),
    (maxCacheSize < 0 ->
       FileCache.setMaxCacheSize maxCacheSize fc w
       = (Throw (FileCache_max_size_is_negative maxCacheSize), fc, w))
    /\ (0 <= maxCacheSize ->
        let r := FileCache.setMaxCacheSize maxCacheSize fc w in
        result_of r = Return tt
        /\ FileCache.maxMemoryUsage (this_after r) = maxCacheSize
        /\ FileCache.lastDigests (this_after r) = FileCache.lastDigests fc
        /\ forall path : string,
             JSMap.has path (FileCache.lastDigests fc) = true ->
             JSMap.get path (Cache.map (FileCache.fileCache (this_after r)))
             = JSMap.get path (Cache.map (FileCache.fileCache fc)))
    /\ result_of (FileCache.resetMaxCacheSize fc w) = Return tt
    /\ FileCache.maxMemoryUsage (this_after (FileCache.resetMaxCacheSize fc w))
       = 1073741824.
Proof.
  intros fc w maxCacheSize.
  assert (Hok : forall n : Z, 0 <= n ->
            let r := FileCache.setMaxCacheSize n fc w in
            result_of r = Return tt
            /\ FileCache.maxMemoryUsage (this_after r) = n
            /\ FileCache.lastDigests (this_after r) = FileCache.lastDigests fc
            /\ forall path : string,
                 JSMap.has path (FileCache.lastDigests fc) = true ->
                 JSMap.get path (Cache.map (FileCache.fileCache (this_after r)))
                 = JSMap.get path (Cache.map (FileCache.fileCache fc))).
  { intros n Hn r. subst r. rewrite (setMaxCacheSize_run fc w Hn).
    destruct (maybeFreeMemory_effect (FileCache.set_maxMemoryUsage n fc)
                (emit_event
                   (debug (Cache_max_size_is (Z.shiftr (ToInt32 n) 20))) w))
      as (_ & _ & _ & _ & Hlast & Hmax & Hpinned & _).
    unfold result_of at 1, this_after at 1 2 3. simpl fst. simpl snd.
    split; [reflexivity|]. split; [exact Hmax|]. split; [exact Hlast|].
    exact Hpinned. }
  split; [|split; [exact (Hok maxCacheSize)|]].
  - intros Hneg. unfold FileCache.setMaxCacheSize.
    replace (maxCacheSize <? 0) with true
      by (symmetry; apply Z.ltb_lt; exact Hneg).
    reflexivity.
  - assert (Hdefault : 0 <= DEFAULT_MAX_MEM_USAGE) by (vm_compute; discriminate).
    destruct (Hok DEFAULT_MAX_MEM_USAGE Hdefault) as (R1 & R2 & _).
    split; [exact R1 | exact R2].
Qed.

(** X9 (store, then look up).
    [putCache] always returns normally, and a [getCache] of the path right
    after it returns the value just stored, whatever the memory pressure:
    the eviction comes before the insertion. [putCache] keeps the digests and
    loses no cached known input. *)
Theorem putCache_then_getCache :
  forall (fc : FileCache.t) (w w' : World) (filePath : string)
         (entry : FileCache.SourceFileEntry),
    let r := FileCache.putCache filePath entry fc w in
    result_of r = Return tt
    /\ result_of (FileCache.getCache filePath (this_after r) w')
       = Return (Some (FileCache.value entry))
    /\ FileCache.lastDigests (this_after r) = FileCache.lastDigests fc
    /\ forall path : string,
         JSMap.has path (FileCache.lastDigests fc) = true ->
         JSMap.get path (Cache.map (FileCache.fileCache (this_after r)))
         = (if String.eqb path filePath then Some entry
            else JSMap.get path (Cache.map (FileCache.fileCache fc))).
Proof.
  intros fc w w' filePath entry r. subst r.
  rewrite putCache_run.
  destruct (maybeFreeMemory_effect fc w)
    as (_ & _ & _ & _ & Hlast & _ & Hpinned & _).
  unfold result_of at 1, this_after at 1 2 3. simpl fst. simpl snd.
  split; [reflexivity|]. split; [|split].
  - rewrite getCache_run. unfold result_of. simpl fst.
    simpl Cache.map. rewrite get_set, String.eqb_refl. reflexivity.
  - exact Hlast.
  - intros path Hknown. simpl Cache.map. rewrite get_set.
    destruct (String.eqb path filePath); [reflexivity|].
    apply Hpinned. exact Hknown.
Qed.

(** X10 (the count of maybeFreeMemory).
    [maybeFreeMemory] returns the number of entries it dropped from the file
    store and adds it to the [evictions] counter. It never drops the entry of
    a path of [lastDigests], it keeps the digests and the limit, and without
    memory pressure it changes nothing. *)
Theorem maybeFreeMemory_returns_what_it_dropped :
  forall (fc : FileCache.t) (w : World),
    let r := FileCache.maybeFreeMemory fc w in
    let c := FileCache.fileCache fc in
    let c' := FileCache.fileCache (this_after r) in
    let dropped := JSMap.size (Cache.map c) - JSMap.size (Cache.map c') in
    result_of r = Return dropped
    /\ 0 <= dropped
    /\ evictions (Cache.stats c') = evictions (Cache.stats c) + dropped
    /\ (forall path : string,
          JSMap.has path (FileCache.lastDigests fc) = true ->
          JSMap.get path (Cache.map c') = JSMap.get path (Cache.map c))
    /\ FileCache.lastDigests (this_after r) = FileCache.lastDigests fc
    /\ (heapUsed w (ticks w) <= FileCache.maxMemoryUsage fc ->
        this_after r = fc).
Proof.
  intros fc w r c c' dropped.
  destruct (maybeFreeMemory_effect fc w)
    as (Hres & Hpos & Hstats & _ & Hlast & _ & Hpinned & _).
  fold r c c' dropped in Hres, Hpos, Hstats, Hlast, Hpinned.
  split; [exact Hres|]. split; [exact Hpos|]. split.
  { rewrite Hstats. reflexivity. }
  split; [exact Hpinned|]. split; [exact Hlast|].
  intros Hidle. subst r. rewrite maybeFreeMemory_idle by exact Hidle.
  reflexivity.
Qed.

(** X11 (storing under pressure).
    [putCache] under memory pressure, when no cached path is a known input
    and the new path is not cached: a store of even size keeps its newer
    half and gains the new entry at the newest end; a store of odd size
    keeps nothing but the new entry. *)
Theorem putCache_under_memory_pressure :
  forall (fc : FileCache.t) (w : World) (filePath : string)
         (entry : FileCache.SourceFileEntry),
    FileCache.cannotEvict fc = false ->
    heapUsed w (ticks w) > FileCache.maxMemoryUsage fc ->
    JSMap.wf (Cache.map (FileCache.fileCache fc)) ->
    (forall k : string,
        In k (JSMap.keys (Cache.map (FileCache.fileCache fc))) ->
        JSMap.has k (FileCache.lastDigests fc) = false) ->
    JSMap.has filePath (Cache.map (FileCache.fileCache fc)) = false ->
    let m := Cache.map (FileCache.fileCache fc) in
    let m' := Cache.map (FileCache.fileCache
                (this_after (FileCache.putCache filePath entry fc w))) in
    (Nat.even (length m) = true ->
       m' = skipn (length m / 2) m ++ [(filePath, entry)])
    /\ (Nat.odd (length m) = true -> m' = [(filePath, entry)]).
Proof.
  intros fc w filePath entry Hguard Hpressure Hwf Hnone Hnew m m'.
  assert (Hevicted :
    Cache.map (FileCache.fileCache (this_after (FileCache.maybeFreeMemory fc w)))
    = Cache.evict_loop None (JSMap.keys m) (inject_Z (JSMap.size m) / 2) m).
  { rewrite (maybeFreeMemory_evicts fc w Hguard Hpressure).
    unfold this_after at 1. simpl fst. simpl snd. simpl FileCache.fileCache.
    rewrite evict_map. apply evict_loop_none_pinned. exact Hnone. }
  assert (Hm' : m' = JSMap.set filePath entry
                       (Cache.evict_loop None (JSMap.keys m)
                          (inject_Z (JSMap.size m) / 2) m)).
  { subst m'. rewrite putCache_run. unfold this_after at 1. simpl fst. simpl snd.
    simpl Cache.map. rewrite Hevicted. reflexivity. }
  assert (Hfresh : ~ In filePath (JSMap.keys m)).
  { apply has_false_notin. exact Hnew. }
  split; intros Hpar.
  - apply Nat.even_spec in Hpar. destruct Hpar as [k Hk].
    assert (Hhalf : (length m / 2 = k)%nat).
    { rewrite Hk, Nat.mul_comm. apply Nat.div_mul. discriminate. }
    rewrite Hhalf, Hm'.
    assert (Hloop : Cache.evict_loop None (JSMap.keys m)
                      (inject_Z (JSMap.size m) / 2) m = skipn k m).
    { apply evict_loop_whole; [exact Hwf | lia |].
      unfold JSMap.size. rewrite Hk. apply half_even. }
    rewrite Hloop. unfold JSMap.set.
    replace (JSMap.has filePath (skipn k m)) with false; [reflexivity|].
    symmetry. rewrite has_get. rewrite get_notin; [reflexivity|].
    intros Hin. apply Hfresh. eapply keys_skipn_in. exact Hin.
  - apply Nat.odd_spec in Hpar. destruct Hpar as [k Hk].
    assert (Hloop : Cache.evict_loop None (JSMap.keys m)
                      (inject_Z (JSMap.size m) / 2) m = []).
    { apply evict_loop_fraction; [exact Hwf|].
      unfold JSMap.size. rewrite Hk. apply half_odd. }
    rewrite Hm', Hloop. reflexivity.
Qed.

(** X12 (fileExists).
    For the cached loader a file exists when its path is in the digests given
    to the last [updateCache], whatever the disk holds; asking changes
    nothing. For the uncached loader a file exists when the disk has it. *)
Theorem fileExists_means_known_input :
  forall (fc : FileCache.t) (w w' : World) (digests : Digests)
         (totalReadTimeMs : Z) (filePath : string),
    let loader :=
      CachedFileLoader.mk (this_after (FileCache.updateCache digests fc w))
        totalReadTimeMs in
    CachedFileLoader.fileExists filePath loader w'
    = (Return (JSMap.has filePath (as_Map digests)), loader, w')
    /\ UncachedFileLoader.fileExists filePath tt w'
       = (Return (match disk w' filePath with Some _ => true | None => false end),
          tt, w').
Proof.
  intros fc w w' digests totalReadTimeMs filePath loader.
  split; [|reflexivity].
  assert (Hlast : FileCache.lastDigests
                    (this_after (FileCache.updateCache digests fc w))
                  = as_Map digests).
  { rewrite updateCache_run.
    destruct (updateCache_loop_fields (JSMap.entries (as_Map digests))
                (FileCache.mk (FileCache.fileCache fc) (as_Map digests) false
                   (FileCache.maxMemoryUsage fc))
                (emit_event (debug (updating_digests (as_Map digests))) w))
      as (Hlast & _ & _).
    exact Hlast. }
  assert (Hrun : forall l : CachedFileLoader.t,
            CachedFileLoader.fileExists filePath l w'
            = (Return (JSMap.has filePath
                         (FileCache.lastDigests (CachedFileLoader.cache l))),
               l, w')).
  { intros [cache total]. reflexivity. }
  rewrite Hrun. subst loader. simpl CachedFileLoader.cache.
  rewrite Hlast. reflexivity.
Qed.

(** One call other than [updateCache] and [putCache] of the path keeps the
    digests and the cached entry of a known input. *)
Lemma run_FileCacheOp_keeps_known_input (op : FileCacheOp) fc w path :
  JSMap.has path (FileCache.lastDigests fc) = true ->
  replaces path op = false ->
  let fc' := fst (run_FileCacheOp op fc w) in
  FileCache.lastDigests fc' = FileCache.lastDigests fc
  /\ JSMap.get path (Cache.map (FileCache.fileCache fc'))
     = JSMap.get path (Cache.map (FileCache.fileCache fc)).
Proof.
  intros Hknown Hop fc'. subst fc'.
  assert (Hlook : forall filePath,
            Cache.map (this_after (Cache.get filePath true (FileCache.fileCache fc) w))
            = Cache.map (FileCache.fileCache fc)
            \/ exists e, JSMap.get filePath (Cache.map (FileCache.fileCache fc)) = Some e
                 /\ Cache.map (this_after (Cache.get filePath true
                                            (FileCache.fileCache fc) w))
                    = JSMap.delete filePath (Cache.map (FileCache.fileCache fc))
                      ++ [(filePath, e)]).
  { intros filePath. rewrite get_map.
    destruct (JSMap.get filePath (Cache.map (FileCache.fileCache fc))) as [e|];
      [right; exists e; auto | left; reflexivity]. }
  destruct op; try discriminate Hop; unfold run_FileCacheOp, settle, fst.
  - destruct (Z_lt_le_dec maxCacheSize 0) as [Hneg|Hpos].
    + unfold FileCache.setMaxCacheSize.
      replace (maxCacheSize <? 0) with true
        by (symmetry; apply Z.ltb_lt; exact Hneg).
      split; reflexivity.
    + rewrite (setMaxCacheSize_run fc w Hpos).
      destruct (maybeFreeMemory_effect
                  (FileCache.set_maxMemoryUsage maxCacheSize fc)
                  (emit_event
                     (debug (Cache_max_size_is
                               (Z.shiftr (ToInt32 maxCacheSize) 20))) w))
        as (_ & _ & _ & _ & Hlast & _ & Hpinned & _).
      unfold this_after at 1 3. simpl fst. simpl snd.
      split; [exact Hlast | exact (Hpinned path Hknown)].
  - unfold FileCache.resetMaxCacheSize.
    assert (Hdefault : 0 <= DEFAULT_MAX_MEM_USAGE) by (vm_compute; discriminate).
    rewrite (setMaxCacheSize_run fc w Hdefault).
    destruct (maybeFreeMemory_effect
                (FileCache.set_maxMemoryUsage DEFAULT_MAX_MEM_USAGE fc)
                (emit_event
                   (debug (Cache_max_size_is
                             (Z.shiftr (ToInt32 DEFAULT_MAX_MEM_USAGE) 20))) w))
      as (_ & _ & _ & _ & Hlast & _ & Hpinned & _).
    unfold this_after at 1 3. simpl fst. simpl snd.
    split; [exact Hlast | exact (Hpinned path Hknown)].
  - rewrite getLastDigest_run. split; reflexivity.
  - rewrite getCache_run. unfold this_after at 1 3. simpl fst. simpl snd.
    split; [reflexivity|]. simpl FileCache.fileCache.
    destruct (Hlook filePath) as [Hsame|[e [He Hmoved]]].
    + rewrite Hsame. reflexivity.
    + rewrite Hmoved. apply get_after_touch. exact He.
  - simpl in Hop. rewrite putCache_run.
    destruct (maybeFreeMemory_effect fc w)
      as (_ & _ & _ & _ & Hlast & _ & Hpinned & _).
    unfold this_after at 1 4. simpl fst. simpl snd.
    split; [exact Hlast|]. simpl Cache.map. rewrite get_set.
    rewrite String.eqb_sym, Hop. exact (Hpinned path Hknown).
  - split; reflexivity.
  - rewrite inCache_run. unfold this_after at 1 3. simpl fst. simpl snd.
    split; [reflexivity|]. simpl FileCache.fileCache.
    destruct (Hlook filePath) as [Hsame|[e [He Hmoved]]].
    + rewrite Hsame. reflexivity.
    + rewrite Hmoved. apply get_after_touch. exact He.
  - split; reflexivity.
  - split; reflexivity.
  - split; reflexivity.
  - destruct (maybeFreeMemory_effect fc w)
      as (_ & _ & _ & _ & Hlast & _ & Hpinned & _).
    split; [exact Hlast | exact (Hpinned path Hknown)].
  - split; reflexivity.
Qed.

(** X13 (known inputs stay). Until the next [updateCache], a path of the
    digests keeps its cached entry: through any calls other than
    [updateCache] and [putCache] of that very path, a lookup of the path finds
    what it found before, and the digests are the same. *)
Theorem known_inputs_stay_cached :
  forall (ops : list FileCacheOp) (fc : FileCache.t) (w : World) (path : string),
    JSMap.has path (FileCache.lastDigests fc) = true ->
    forallb (fun op => negb (replaces path op)) ops = true ->
    let fc' := fst (run_FileCacheOps ops fc w) in
    FileCache.lastDigests fc' = FileCache.lastDigests fc
    /\ JSMap.get path (Cache.map (FileCache.fileCache fc'))
       = JSMap.get path (Cache.map (FileCache.fileCache fc)).
Proof.
  induction ops as [|op ops IH]; intros fc w path Hknown Hops fc'.
  - split; reflexivity.
  - simpl in Hops. apply andb_prop in Hops. destruct Hops as [Hop Hops].
    apply negb_true_iff in Hop.
    destruct (run_FileCacheOp_keeps_known_input op fc w path Hknown Hop)
      as [Hlast Hget].
    subst fc'. simpl run_FileCacheOps.
    destruct (run_FileCacheOp op fc w) as [fc1 w1]. simpl fst in Hlast, Hget.
    assert (Hknown1 : JSMap.has path (FileCache.lastDigests fc1) = true)
      by (rewrite Hlast; exact Hknown).
    destruct (IH fc1 w1 path Hknown1 Hops) as [Hlast' Hget'].
    split; congruence.
Qed.

End MoreFileCacheProperties.

(** ** Further facts about the loaders *)

Section MoreLoaderFacts.
Context `{TypeScript}.
Implicit Types (fc : FileCache.t) (loader : CachedFileLoader.t) (w : World).

Lemma disk_work_emit (e : Event) w :
  disk_work (emit_event e w)
  = disk_work w ++ (if reads_or_parses e then [e] else []).
Proof. unfold disk_work. simpl. rewrite filter_app. reflexivity. Qed.

Lemma traceStats_world (V : Type) (c : Cache.t V) w :
  disk_work (world_after (Cache.traceStats c w)) = disk_work w
  /\ ticks (world_after (Cache.traceStats c w)) = ticks w
  /\ dateNow (world_after (Cache.traceStats c w)) = dateNow w
  /\ heapUsed (world_after (Cache.traceStats c w)) = heapUsed w
  /\ disk (world_after (Cache.traceStats c w)) = disk w.
Proof.
  unfold Cache.traceStats, bind, self, emit, world_after. simpl.
  rewrite !disk_work_emit. simpl. rewrite !app_nil_r. auto.
Qed.

(** The store's operations leave the disk and the clock alone. *)
Lemma get_world (V : Type) key updateCache (c : Cache.t V) w :
  let w' := world_after (Cache.get key updateCache c w) in
  disk_work w' = disk_work w
  /\ ticks w' = ticks w /\ dateNow w' = dateNow w
  /\ heapUsed w' = heapUsed w /\ disk w' = disk w.
Proof.
  unfold Cache.get, Cache.traceStats, bind, self, emit, modify, ret,
    world_after. simpl.
  destruct updateCache; simpl; [|auto].
  destruct (JSMap.get key (Cache.map c)); simpl;
    rewrite !disk_work_emit; simpl; rewrite !app_nil_r; auto.
Qed.




Lemma lookup_world filePath loader w :
  let w' := snd (after_lookup filePath loader w) in
  disk_work w' = disk_work w
  /\ ticks w' = ticks w /\ dateNow w' = dateNow w
  /\ heapUsed w' = heapUsed w /\ disk w' = disk w.
Proof.
  unfold after_lookup. rewrite getCache_run. simpl snd.
  unfold world_after at 1. simpl snd.
  apply (get_world filePath true
           (FileCache.fileCache (CachedFileLoader.cache loader)) w).
Qed.

(** On a hit [loadFile] is the lookup and nothing else. *)
Lemma loadFile_hit_run fileName filePath langVer loader w e :
  JSMap.get filePath
    (Cache.map (FileCache.fileCache (CachedFileLoader.cache loader))) = Some e ->
  CachedFileLoader.loadFile fileName filePath langVer loader w
  = (Return (FileCache.value e),
     fst (after_lookup filePath loader w),
     snd (after_lookup filePath loader w)).
Proof.
  intros Hhit. unfold CachedFileLoader.loadFile.
  unfold bind at 1. rewrite lookup_run, Hhit. reflexivity.
Qed.


End MoreLoaderFacts.

(** ** Further properties of the loaders *)

Section MoreLoaderProperties.
Context `{TypeScript}.
Implicit Types (loader : CachedFileLoader.t) (w : World).

(** X14 (a hit costs no disk work).
    A hit of the cached [loadFile] is decided by the path alone: the cached
    value comes back whatever the logical name, the language version and the
    disk are. Nothing is read or parsed, the clock is not read, the read
    time is not changed; the entry moves to the newest end of the store. *)
Theorem loadFile_hit_ignores_the_disk :
  forall (loader : CachedFileLoader.t) (w : World)
         (fileName filePath : string) (langVer : ScriptTarget)
         (e : FileCache.SourceFileEntry),
    JSMap.get filePath
      (Cache.map (FileCache.fileCache (CachedFileLoader.cache loader)))
      = Some e ->
    let r := CachedFileLoader.loadFile fileName filePath langVer loader w in
    result_of r = Return (FileCache.value e)
    /\ disk_work (world_after r) = disk_work w
    /\ ticks (world_after r) = ticks w
    /\ CachedFileLoader.totalReadTimeMs (this_after r)
       = CachedFileLoader.totalReadTimeMs loader
    /\ Cache.map (FileCache.fileCache (CachedFileLoader.cache (this_after r)))
       = JSMap.delete filePath
           (Cache.map (FileCache.fileCache (CachedFileLoader.cache loader)))
         ++ [(filePath, e)]
    /\ FileCache.lastDigests (CachedFileLoader.cache (this_after r))
       = FileCache.lastDigests (CachedFileLoader.cache loader).
Proof.
  intros loader w fileName filePath langVer e Hhit r. subst r.
  rewrite (loadFile_hit_run fileName filePath langVer loader w Hhit).
  unfold result_of, this_after, world_after. simpl fst. simpl snd.
  destruct (lookup_world filePath loader w) as (E1 & E2 & _).
  split; [reflexivity|]. split; [exact E1|]. split; [exact E2|].
  split; [reflexivity|]. split.
  - unfold after_lookup. rewrite getCache_run. simpl.
    rewrite get_map, Hhit. reflexivity.
  - apply lookup_keeps_lastDigests.
Qed.


End MoreLoaderProperties.

(** ** Further properties of the program-level cache *)

Section MoreProgramAndFileCacheProperties.
Context `{TypeScript}.
Implicit Types (pfc : ProgramAndFileCache.t) (w : World).

Lemma ProgramAndFileCache_maybeFreeMemory_idle pfc w :
  heapUsed w (ticks w) <= FileCache.maxMemoryUsage (ProgramAndFileCache.super pfc) ->
  ProgramAndFileCache.maybeFreeMemory pfc w = (Return 0, pfc, tick w).
Proof.
  intros Hidle. unfold ProgramAndFileCache.maybeFreeMemory.
  assert (Hshould : ProgramAndFileCache.on_super FileCache.shouldFreeMemory pfc w
                    = (Return false, pfc, tick w)).
  { unfold ProgramAndFileCache.on_super. rewrite zoom_run.
    unfold FileCache.shouldFreeMemory, process_memoryUsage_heapUsed, bind, self,
      ret, result_of, this_after, world_after. simpl.
    replace (heapUsed w (ticks w)
             >? FileCache.maxMemoryUsage (ProgramAndFileCache.super pfc))
      with false by (symmetry; rewrite Z.gtb_ltb; apply Z.ltb_ge; exact Hidle).
    destruct pfc. reflexivity. }
  unfold bind. rewrite Hshould. reflexivity.
Qed.

(** The override in one statement: what it returns and what it keeps. *)
Lemma ProgramAndFileCache_maybeFreeMemory_effect pfc w :
  let r := ProgramAndFileCache.maybeFreeMemory pfc w in
  let programs := Cache.map (ProgramAndFileCache.programCache pfc) in
  let programs' := Cache.map (ProgramAndFileCache.programCache (this_after r)) in
  let files := Cache.map (FileCache.fileCache (ProgramAndFileCache.super pfc)) in
  let files' :=
    Cache.map (FileCache.fileCache (ProgramAndFileCache.super (this_after r))) in
  let dropped_programs := JSMap.size programs - JSMap.size programs' in
  let dropped_files := JSMap.size files - JSMap.size files' in
  result_of r = Return (dropped_programs + dropped_files)
  /\ 0 <= dropped_programs
  /\ 0 <= dropped_files
  /\ (dropped_programs = 0 \/ dropped_files = 0)
  /\ FileCache.lastDigests (ProgramAndFileCache.super (this_after r))
     = FileCache.lastDigests (ProgramAndFileCache.super pfc)
  /\ (forall path : string,
        JSMap.has path (FileCache.lastDigests (ProgramAndFileCache.super pfc))
          = true ->
        JSMap.get path files' = JSMap.get path files)
  /\ (programs <> [] \/ heapUsed w (ticks w)
                        <= FileCache.maxMemoryUsage (ProgramAndFileCache.super pfc) ->
      ProgramAndFileCache.super (this_after r) = ProgramAndFileCache.super pfc).
Proof.
  intros r programs programs' files files' dropped_programs dropped_files.
  destruct (Z_gt_le_dec (heapUsed w (ticks w))
              (FileCache.maxMemoryUsage (ProgramAndFileCache.super pfc)))
    as [Hpressure|Hidle].
  2: { subst dropped_programs dropped_files programs' files' r programs files.
       rewrite (ProgramAndFileCache_maybeFreeMemory_idle pfc w Hidle).
       unfold result_of, this_after. simpl fst. simpl snd.
       repeat split; auto; try lia. f_equal. lia. }
  pose proof (ProgramAndFileCache_maybeFreeMemory_pressure pfc w Hpressure)
    as Hrun.
  cbv zeta in Hrun.
  set (p := Cache.evict None (ProgramAndFileCache.programCache pfc) (tick w)) in *.
  assert (Hp : 0 <= JSMap.size programs - JSMap.size (Cache.map (this_after p))).
  { subst p programs. rewrite evict_map. unfold JSMap.size.
    pose proof (evict_loop_length None
                  (JSMap.keys (Cache.map (ProgramAndFileCache.programCache pfc)))
                  (inject_Z (Z.of_nat (length (Cache.map
                     (ProgramAndFileCache.programCache pfc)))) / 2)
                  (Cache.map (ProgramAndFileCache.programCache pfc))).
    lia. }
  fold programs in Hrun.
  destruct (JSMap.size programs - JSMap.size (Cache.map (this_after p)) >? 0)
    eqn:Hdropped.
  - subst dropped_programs dropped_files programs' files' r.
    rewrite Hrun. unfold result_of, this_after at 1 2 3 4 5. simpl fst. simpl snd.
    simpl ProgramAndFileCache.programCache. simpl ProgramAndFileCache.super.
    fold files.
    split; [f_equal; lia|]. split; [exact Hp|]. split; [lia|].
    split; [right; lia|]. split; [reflexivity|]. split; [reflexivity|].
    reflexivity.
  - assert (Hzero : JSMap.size programs - JSMap.size (Cache.map (this_after p)) = 0).
    { rewrite Z.gtb_ltb in Hdropped. apply Z.ltb_ge in Hdropped. lia. }
    set (evicted := ProgramAndFileCache.mk (ProgramAndFileCache.super pfc)
                      (this_after p)) in *.
    assert (Hfall : ProgramAndFileCache.maybeFreeMemory pfc w
                    = (result_of (FileCache.maybeFreeMemory
                                    (ProgramAndFileCache.super pfc) (world_after p)),
                       ProgramAndFileCache.mk
                         (this_after (FileCache.maybeFreeMemory
                                        (ProgramAndFileCache.super pfc)
                                        (world_after p)))
                         (this_after p),
                       world_after (FileCache.maybeFreeMemory
                                      (ProgramAndFileCache.super pfc)
                                      (world_after p)))).
    { rewrite Hrun. unfold ProgramAndFileCache.on_super. rewrite zoom_run.
      reflexivity. }
    destruct (maybeFreeMemory_effect (ProgramAndFileCache.super pfc) (world_after p))
      as (Hres & Hpos & _ & _ & Hlast & _ & Hpinned & _).
    subst dropped_programs dropped_files programs' files' r.
    rewrite Hfall. unfold result_of at 1, this_after at 1 2 3 4 5.
    simpl fst. simpl snd.
    simpl ProgramAndFileCache.programCache. simpl ProgramAndFileCache.super.
    fold files. change (snd (fst p)) with (this_after p). rewrite Hzero.
    split; [rewrite Hres; f_equal; fold files; lia|].
    split; [lia|]. split; [exact Hpos|]. split; [left; reflexivity|].
    split; [exact Hlast|]. split; [exact Hpinned|].
    intros [Hprograms|Hidle]; [|lia].
    exfalso. pose proof (evict_unpinned_drops
                           (ProgramAndFileCache.programCache pfc) (tick w)
                           Hprograms) as Hdrops.
    fold p in Hdrops. fold programs in Hdrops. lia.
Qed.

Lemma putProgram_run target program pfc w :
  let r := ProgramAndFileCache.maybeFreeMemory pfc w in
  exists dropped : Z,
    ProgramAndFileCache.putProgram target program pfc w
    = (Return tt,
       ProgramAndFileCache.set_programCache
         (Cache.with_map (JSMap.set target program)
            (ProgramAndFileCache.programCache (this_after r)))
         (this_after r),
       emit_event (debug (Loaded_program target dropped)) (world_after r)).
Proof.
  intros r.
  destruct (ProgramAndFileCache_maybeFreeMemory_effect pfc w) as [Hres _].
  fold r in Hres. eexists.
  unfold ProgramAndFileCache.putProgram.
  rewrite (bind_Return _ _ _ _ Hres). fold r.
  reflexivity.
Qed.

(** X16 (one store per pass).
    The override of [maybeFreeMemory] returns the number of entries it
    dropped, programs and files together, and never drops from both stores
    in one call. It keeps the digests and every cached known input, and it
    leaves the file cache alone when there is a program to drop or no
    memory pressure. *)
Theorem ProgramAndFileCache_maybeFreeMemory_accounts :
  forall (pfc : ProgramAndFileCache.t) (w : World),
    let r := ProgramAndFileCache.maybeFreeMemory pfc w in
    let programs := Cache.map (ProgramAndFileCache.programCache pfc) in
    let programs' := Cache.map (ProgramAndFileCache.programCache (this_after r)) in
    let files := Cache.map (FileCache.fileCache (ProgramAndFileCache.super pfc)) in
    let files' :=
      Cache.map (FileCache.fileCache (ProgramAndFileCache.super (this_after r))) in
    let dropped_programs := JSMap.size programs - JSMap.size programs' in
    let dropped_files := JSMap.size files - JSMap.size files' in
    result_of r = Return (dropped_programs + dropped_files)
    /\ 0 <= dropped_programs
    /\ 0 <= dropped_files
    /\ (dropped_programs = 0 \/ dropped_files = 0)
    /\ (forall path : string,
          JSMap.has path (FileCache.lastDigests (ProgramAndFileCache.super pfc))
            = true ->
          JSMap.get path files' = JSMap.get path files)
    /\ (programs <> []
        \/ heapUsed w (ticks w)
           <= FileCache.maxMemoryUsage (ProgramAndFileCache.super pfc) ->
        ProgramAndFileCache.super (this_after r) = ProgramAndFileCache.super pfc).
Proof.
  intros pfc w r programs programs' files files' dropped_programs dropped_files.
  destruct (ProgramAndFileCache_maybeFreeMemory_effect pfc w)
    as (R1 & R2 & R3 & R4 & _ & R6 & R7).
  repeat (split; [assumption|]). exact R7.
Qed.

(** X17 (store a program, then get it).
    [putProgram] always returns normally, and a [getProgram] of the target
    right after it returns the program just stored, whatever the memory
    pressure. It never changes the digests nor drops a cached known input,
    and it leaves the file cache alone when a program was cached before or
    there is no memory pressure. *)
Theorem putProgram_then_getProgram :
  forall (pfc : ProgramAndFileCache.t) (w w' : World) (target : string)
         (program : Program),
    let r := ProgramAndFileCache.putProgram target program pfc w in
    result_of r = Return tt
    /\ result_of (ProgramAndFileCache.getProgram target (this_after r) w')
       = Return (Some program)
    /\ FileCache.lastDigests (ProgramAndFileCache.super (this_after r))
       = FileCache.lastDigests (ProgramAndFileCache.super pfc)
    /\ (forall path : string,
          JSMap.has path (FileCache.lastDigests (ProgramAndFileCache.super pfc))
            = true ->
          JSMap.get path
            (Cache.map (FileCache.fileCache
                          (ProgramAndFileCache.super (this_after r))))
          = JSMap.get path
              (Cache.map (FileCache.fileCache (ProgramAndFileCache.super pfc))))
    /\ (Cache.map (ProgramAndFileCache.programCache pfc) <> []
        \/ heapUsed w (ticks w)
           <= FileCache.maxMemoryUsage (ProgramAndFileCache.super pfc) ->
        ProgramAndFileCache.super (this_after r) = ProgramAndFileCache.super pfc).
Proof.
  intros pfc w w' target program r. subst r.
  destruct (putProgram_run target program pfc w) as [dropped Hrun].
  rewrite Hrun.
  destruct (ProgramAndFileCache_maybeFreeMemory_effect pfc w)
    as (_ & _ & _ & _ & Hlast & Hpinned & Hsuper).
  unfold result_of at 1, this_after at 1 2 3 4. simpl fst. simpl snd.
  simpl ProgramAndFileCache.super.
  split; [reflexivity|]. split.
  { unfold ProgramAndFileCache.getProgram, ProgramAndFileCache.on_programCache.
    rewrite zoom_run. unfold result_of at 1. simpl fst.
    rewrite get_result. simpl. rewrite get_set, String.eqb_refl. reflexivity. }
  split; [exact Hlast|]. split; [exact Hpinned | exact Hsuper].
Qed.

End MoreProgramAndFileCacheProperties.

(** ** The order of eviction, and digests given as an object *)

Section EvictionOrder.
Variable V : Type.
Implicit Types (m : JSMap.t V) (c : Cache.t V) (w : World).

Lemma evict_loop_incl pins keys (q : Q) m (kv : string * V) :
  In kv (Cache.evict_loop pins keys q m) -> In kv m.
Proof.
  revert q m. induction keys as [|key keys IH]; intros q m; [auto|].
  rewrite evict_loop_step.
  destruct (Qeq_bool q 0); [auto|].
  destruct (Cache.pinned pins key); [apply IH|].
  intros Hin. apply IH in Hin. unfold JSMap.delete in Hin.
  apply filter_In in Hin. tauto.
Qed.

Lemma get_cons_other key k (v : V) m :
  k <> key -> JSMap.get key ((k, v) :: m) = JSMap.get key m.
Proof.
  intros Hne. simpl.
  replace (JSMap.is_key key (k, v)) with false
    by (symmetry; apply is_key_false; exact Hne).
  reflexivity.
Qed.

(** If the loop removes a key, it has removed every unpinned key that stood
    before it. *)
Lemma evict_loop_oldest_first pins a b : forall m (q : Q) older (va : V) rest,
  JSMap.wf m ->
  m = older ++ (a, va) :: rest ->
  In b (JSMap.keys rest) ->
  Cache.pinned pins a = false ->
  JSMap.get b (Cache.evict_loop pins (JSMap.keys m) q m) = None ->
  JSMap.get a (Cache.evict_loop pins (JSMap.keys m) q m) = None.
Proof.
  induction m as [|[k v] m IH]; intros q older va rest Hwf Hm Hb Ha Hgone.
  - destruct older; discriminate.
  - rewrite (evict_loop_cons pins q Hwf) in *.
    destruct (Qeq_bool q 0).
    + exfalso.
      assert (Hin : In b (JSMap.keys ((k, v) :: m))).
      { rewrite Hm. unfold JSMap.keys. rewrite map_app. apply in_or_app.
        right. right. exact Hb. }
      destruct (get_in b _ Hin) as [x Hx]. congruence.
    + destruct older as [|[k0 v0] older].
      * simpl in Hm. injection Hm as Hk Hv Hrest. subst k v m.
        rewrite Ha in *.
        apply get_notin. intros Hin.
        unfold JSMap.keys in Hin. apply in_map_iff in Hin.
        destruct Hin as [[x y] [Hx Hin]]. simpl in Hx. subst x.
        apply evict_loop_incl in Hin.
        inversion Hwf as [|? ? Hn Hnd]; subst. apply Hn.
        change a with (fst (a, y)). apply in_map. exact Hin.
      * simpl in Hm. injection Hm as Hk Hv Hrest. subst k0 v0.
        assert (Hka : k <> a).
        { intros ->. inversion Hwf as [|? ? Hn Hnd]; subst. apply Hn.
          unfold JSMap.keys. rewrite map_app. apply in_or_app. right. left.
          reflexivity. }
        destruct (Cache.pinned pins k).
        -- assert (Hkb : k <> b).
           { intros ->. simpl in Hgone.
             replace (JSMap.is_key b (b, v)) with true in Hgone
               by (symmetry; apply is_key_true; reflexivity).
             discriminate. }
           rewrite get_cons_other in Hgone by exact Hkb.
           rewrite get_cons_other by exact Hka.
           exact (IH q older va rest (wf_tail Hwf) Hrest Hb Ha Hgone).
        -- exact (IH (q - 1)%Q older va rest (wf_tail Hwf) Hrest Hb Ha Hgone).
Qed.

(** [new Map] of the properties of an object, each key once, is the list of
    those properties. *)
Lemma of_entries_wf (l : list (string * V)) :
  JSMap.wf l -> JSMap.of_entries l = l.
Proof.
  unfold JSMap.of_entries.
  assert (Hgen : forall acc : JSMap.t V,
            JSMap.wf (acc ++ l) ->
            fold_left (fun m kv => JSMap.set (fst kv) (snd kv) m) l acc
            = acc ++ l).
  { induction l as [|[k v] l IH]; intros acc Hwf; simpl.
    - rewrite app_nil_r. reflexivity.
    - assert (Hfresh : JSMap.has k acc = false).
      { rewrite has_get, get_notin; [reflexivity|].
        apply (wf_app_l_fresh acc ((k, v) :: l) k Hwf). left. reflexivity. }
      unfold JSMap.set at 2. rewrite Hfresh.
      replace (acc ++ (k, v) :: l) with ((acc ++ [(k, v)]) ++ l) in *
        by (rewrite <- app_assoc; reflexivity).
      apply IH. exact Hwf. }
  intros Hwf. apply (Hgen []). exact Hwf.
Qed.

(** X4 (oldest first). [evict] goes by recency: when it removes the entry of
    a key, it has removed the entry of every unpinned key that was less
    recently used. *)
Theorem evict_removes_oldest_first :
  forall (c : Cache.t V) (w : World) (unevictableKeys : option KeySet)
         (a b : string) (va : V) (older rest : JSMap.t V),
    JSMap.wf (Cache.map c) ->
    Cache.map c = older ++ (a, va) :: rest ->
    In b (JSMap.keys rest) ->
    Cache.pinned unevictableKeys a = false ->
    let m' := Cache.map (this_after (Cache.evict unevictableKeys c w)) in
    JSMap.get b m' = None -> JSMap.get a m' = None.
Proof.
  intros c w pins a b va older rest Hwf Hm Hb Ha m'. subst m'.
  rewrite evict_map.
  apply (evict_loop_oldest_first pins a b _ older va rest Hwf Hm Hb Ha).
Qed.

End EvictionOrder.

Section DigestsAsObject.
Context `{TypeScript}.

(** X7 (object or Map). [updateCache] given a plain object, each property
    once, does what it does given the [Map] of the same pairs. *)
Theorem updateCache_object_as_Map :
  forall (fc : FileCache.t) (w : World) (properties : list (string * string)),
    JSMap.wf properties ->
    as_Map (digests_Object properties) = properties
    /\ FileCache.updateCache (digests_Object properties) fc w
       = FileCache.updateCache (digests_Map properties) fc w.
Proof.
  intros fc w properties Hwf.
  assert (Has : as_Map (digests_Object properties) = properties)
    by (apply of_entries_wf; exact Hwf).
  split; [exact Has|].
  rewrite !updateCache_run. rewrite Has. reflexivity.
Qed.

End DigestsAsObject.

Ltac concrete_wf :=
  unfold JSMap.wf; simpl; repeat constructor; simpl; intuition discriminate.

(** ** The claims at concrete inputs *)

Section ConcreteInputs.
#[local] Existing Instance recording_parser.

Lemma store_of_three_wf : JSMap.wf (Cache.map store_of_three).
Proof.
  unfold JSMap.wf. simpl.
  repeat constructor; simpl; intuition discriminate.
Defined.

Lemma C1_evict_store_of_three :
  result_of (Cache.evict None store_of_three quiet_world) = Return 3
  /\ Cache.map (this_after (Cache.evict None store_of_three quiet_world)) = [].
Proof.
  apply (C1_evict_halves_even_sizes_only store_of_three quiet_world
           store_of_three_wf).
  reflexivity.
Defined.

(** A store holding one entry loses it: [evict()] returns 1, not 0. *)
Example evict_store_of_one :
  forall w : World,
    result_of (Cache.evict None store_of_one w) = Return 1
    /\ Cache.map (this_after (Cache.evict None store_of_one w)) = [].
Proof. intros w. split; reflexivity. Qed.

Lemma C4_evict_pinned_store_of_three :
  JSMap.get "/a.ts"
    (Cache.map (this_after
       (Cache.evict (Some (fun key => String.eqb key "/a.ts"))
          store_of_three quiet_world)))
  = Some entry_a
  /\ result_of (Cache.evict (Some (fun _ => true)) store_of_three quiet_world)
     = Return 0
  /\ this_after (Cache.evict (Some (fun _ => true)) store_of_three quiet_world)
     = store_of_three.
Proof.
  split.
  - exact (proj1 (C4_evict_spares_pinned_keys store_of_three quiet_world
                    (fun key => String.eqb key "/a.ts"))
                 "/a.ts" eq_refl).
  - exact (proj2 (C4_evict_spares_pinned_keys store_of_three quiet_world
                    (fun _ => true))
                 (fun _ _ => eq_refl)).
Defined.

(** A hit straight after [resetStats]. *)
Example hit_after_resetStats :
  let c := this_after (Cache.resetStats store_of_three quiet_world) in
  result_of (Cache.get "/b.ts" true c quiet_world) = Return (Some entry_b)
  /\ Cache.stats (this_after (Cache.get "/b.ts" true c quiet_world))
     = mkStats 1 1 0.
Proof. split; reflexivity. Qed.

Lemma C2_updateCache_a_ts :
  JSMap.get "/a.ts"
    (Cache.map (FileCache.fileCache
       (this_after (FileCache.updateCache digests_same files_a_b quiet_world))))
  = Some entry_a
  /\ JSMap.get "/a.ts"
       (Cache.map (FileCache.fileCache
          (this_after (FileCache.updateCache digests_changed files_a_b quiet_world))))
     = None.
Proof.
  destruct (C2_updateCache_digest_coherency files_a_b quiet_world "/a.ts"
              (D1 := "d1") (e := entry_a) eq_refl eq_refl) as [Hkeep Hdrop].
  split.
  - apply Hkeep; [concrete_wf | reflexivity].
  - apply (Hdrop digests_changed "d9"); [concrete_wf | reflexivity | discriminate].
Defined.

Lemma C3_programs_go_first :
  exists dropped : Z,
    dropped > 0
    /\ result_of (Cache.evict None
                    (ProgramAndFileCache.programCache programs_and_files)
                    (tick pressured_world)) = Return dropped
    /\ result_of (ProgramAndFileCache.maybeFreeMemory programs_and_files
                    pressured_world) = Return dropped
    /\ ProgramAndFileCache.super
         (this_after (ProgramAndFileCache.maybeFreeMemory programs_and_files
                        pressured_world))
       = files_a_b
    /\ world_after (ProgramAndFileCache.maybeFreeMemory programs_and_files
                      pressured_world)
       = world_after (Cache.evict None
                        (ProgramAndFileCache.programCache programs_and_files)
                        (tick pressured_world)).
Proof.
  apply (C3_programs_are_evicted_before_files programs_and_files pressured_world).
  - reflexivity.
  - discriminate.
  - discriminate.
Defined.

Lemma C5_guard_after_vain_pass :
  let ops := [call_getCache "/a.ts"; call_putCache "/c.ts" entry_c;
              call_maybeFreeMemory; call_resetMaxCacheSize] in
  let fc1 := this_after (FileCache.maybeFreeMemory files_a_b pressured_world) in
  let w1 := world_after (FileCache.maybeFreeMemory files_a_b pressured_world) in
  let fc2 := fst (run_FileCacheOps ops fc1 w1) in
  FileCache.cannotEvict fc1 = true
  /\ FileCache.cannotEvict fc2 = true
  /\ result_of (FileCache.maybeFreeMemory fc2 pressured_world) = Return 0.
Proof.
  intros ops fc1 w1 fc2.
  destruct (C5_cannotEvict_guard files_a_b pressured_world ops)
    as (H1 & H2 & H3 & _).
  - reflexivity.
  - reflexivity.
  - reflexivity.
  - reflexivity.
  - split; [exact H1|]. split; [exact H2|].
    exact (proj1 (H3 pressured_world)).
Defined.

Lemma C6_getLastDigest_a_ts :
  result_of (FileCache.getLastDigest "/a.ts"
               (this_after (FileCache.updateCache digests_same
                              FileCache.constructor quiet_world))
               quiet_world)
  = Return "d1".
Proof.
  apply (C6_getLastDigest_needs_nonempty_digest FileCache.constructor
           quiet_world quiet_world digests_same "/a.ts").
  - reflexivity.
  - discriminate.
Defined.

(** C6 as stated fails: a path registered with the empty digest is a known
    input, and yet [getLastDigest] throws for it. *)
Lemma C6_registered_path_with_empty_digest_throws :
  let fc := this_after (FileCache.updateCache (digests_Map [("/a.ts", "")])
                          FileCache.constructor quiet_world) in
  result_of (FileCache.isKnownInput "/a.ts" fc quiet_world) = Return true
  /\ JSMap.get "/a.ts" (FileCache.lastDigests fc) = Some ""
  /\ result_of (FileCache.getLastDigest "/a.ts" fc quiet_world)
     = Throw (missing_input_digest "/a.ts" ["/a.ts"]).
Proof. repeat split. Qed.

Lemma C7_loadFile_a_ts_agree :
  result_of (CachedFileLoader.loadFile "a.ts" "/a.ts" 1 loader_a_b pressured_world)
  = result_of (UncachedFileLoader.loadFile "a.ts" "/a.ts" 1 tt pressured_world).
Proof.
  apply (C7_cached_and_uncached_loadFile_agree loader_a_b pressured_world
           "a.ts" "/a.ts" 1 (D := "d1")).
  - reflexivity.
  - discriminate.
  - intros e He. injection He as <-. exists "let a;". split; reflexivity.
Defined.

(** C7 as stated fails twice over. A path registered with the empty digest is
    parsed by the uncached loader and refused by the cached one. And a cached
    entry made from the current contents of the file, but for language
    version 1, is what the cached loader returns for language version 5. *)
Lemma C7_cached_and_uncached_loadFile_differ :
  (result_of (FileCache.isKnownInput "/a.ts"
                (CachedFileLoader.cache loader_empty_digest) pressured_world)
   = Return true
   /\ result_of (CachedFileLoader.loadFile "a.ts" "/a.ts" 1 loader_empty_digest
                   pressured_world)
      = Throw (missing_input_digest "/a.ts" ["/a.ts"])
   /\ result_of (UncachedFileLoader.loadFile "a.ts" "/a.ts" 1 tt pressured_world)
      = Return (createSourceFile "a.ts" "let a;" 1)
   /\ result_of (CachedFileLoader.loadFile "a.ts" "/a.ts" 1 loader_empty_digest
                   pressured_world)
      <> result_of (UncachedFileLoader.loadFile "a.ts" "/a.ts" 1 tt
                      pressured_world))
  /\ (disk pressured_world "/a.ts" = Some "let a;"
      /\ JSMap.get "/a.ts"
           (Cache.map (FileCache.fileCache (CachedFileLoader.cache loader_a_b)))
         = Some (FileCache.mkEntry "d1" (createSourceFile "a.ts" "let a;" 1))
      /\ result_of (CachedFileLoader.loadFile "a.ts" "/a.ts" 5 loader_a_b
                      pressured_world)
         = Return (createSourceFile "a.ts" "let a;" 1)
      /\ result_of (UncachedFileLoader.loadFile "a.ts" "/a.ts" 5 tt
                      pressured_world)
         = Return (createSourceFile "a.ts" "let a;" 5)
      /\ result_of (CachedFileLoader.loadFile "a.ts" "/a.ts" 5 loader_a_b
                      pressured_world)
         <> result_of (UncachedFileLoader.loadFile "a.ts" "/a.ts" 5 tt
                         pressured_world)).
Proof.
  split.
  - split; [reflexivity|]. split; [reflexivity|]. split; [reflexivity|].
    discriminate.
  - split; [reflexivity|]. split; [reflexivity|]. split; [reflexivity|].
    split; [reflexivity|]. discriminate.
Qed.

Lemma C9_loadFile_unregistered_readable :
  result_of (CachedFileLoader.loadFile "a.ts" "/a.ts" 1 fresh_loader pressured_world)
  = Throw (missing_input_digest "/a.ts" [])
  /\ Cache.map (FileCache.fileCache (CachedFileLoader.cache
        (this_after (CachedFileLoader.loadFile "a.ts" "/a.ts" 1 fresh_loader
                       pressured_world))))
     = [].
Proof.
  destruct (C9_loadFile_unregistered_path fresh_loader pressured_world
              "a.ts" "/a.ts" 1 eq_refl eq_refl) as (Houtcome & Hmap & _).
  split; [exact (proj1 Houtcome) | exact Hmap].
Defined.

(** C9 as stated fails when the file cannot be read: the error of the read
    comes out, not the missing-digest error. *)
Lemma C9_unreadable_file_throws_ENOENT :
  JSMap.get "/x.ts"
    (Cache.map (FileCache.fileCache (CachedFileLoader.cache fresh_loader))) = None
  /\ JSMap.get "/x.ts" (FileCache.lastDigests (CachedFileLoader.cache fresh_loader))
     = None
  /\ result_of (CachedFileLoader.loadFile "x.ts" "/x.ts" 1 fresh_loader quiet_world)
     = Throw (ENOENT "/x.ts")
  /\ Throw (A := SourceFile) (ENOENT "/x.ts")
     <> Throw (missing_input_digest "/x.ts" []).
Proof. repeat split. discriminate. Qed.

Lemma C10_inCache_saves_a_ts :
  JSMap.get "/a.ts"
    (Cache.map (this_after (Cache.evict None (FileCache.fileCache files_a_b)
                              quiet_world)))
  = None
  /\ JSMap.get "/a.ts"
       (Cache.map (this_after
          (Cache.evict None
             (FileCache.fileCache
                (this_after (FileCache.inCache "/a.ts" files_a_b quiet_world)))
             quiet_world)))
     = Some entry_a.
Proof.
  destruct (C10_lookups_change_recency files_a_b quiet_world "/a.ts")
    as (_ & _ & _ & _ & Hevict).
  destruct (Hevict entry_a entry_b "/b.ts" [] quiet_world eq_refl)
    as (_ & Hbefore & _ & Hafter).
  - concrete_wf.
  - split; [exact Hbefore | exact (Hafter eq_refl)].
Defined.

End ConcreteInputs.


(** ** The further properties at concrete inputs *)

Section FurtherPropertiesAtConcreteInputs.
#[local] Existing Instance recording_parser.

Lemma X2_delete_in_store_of_three :
  this_after (Cache.delete "/zz.ts" store_of_three quiet_world) = store_of_three
  /\ result_of
       (Cache.get "/a.ts" true
          (this_after (Cache.delete "/a.ts" store_of_three quiet_world))
          quiet_world)
     = Return None.
Proof.
  split.
  - destruct (delete_then_get store_of_three quiet_world quiet_world
                "/zz.ts" "/a.ts" true) as (_ & _ & _ & Habsent).
    exact (Habsent eq_refl).
  - destruct (delete_then_get store_of_three quiet_world quiet_world
                "/a.ts" "/a.ts" true) as (Hget & _).
    exact Hget.
Defined.

Lemma X3_evict_store_of_three_pinning_a :
  result_of (Cache.evict (Some (fun key => String.eqb key "/a.ts"))
               store_of_three quiet_world) = Return 2
  /\ Cache.map (this_after
       (Cache.evict (Some (fun key => String.eqb key "/a.ts"))
          store_of_three quiet_world))
     = [("/a.ts", entry_a)].
Proof.
  destruct (evict_with_pinned_keys store_of_three quiet_world
              (Some (fun key => String.eqb key "/a.ts")) store_of_three_wf)
    as (_ & _ & Hodd & _).
  destruct (Hodd eq_refl) as [Hmap Hcount].
  split; [exact Hcount | exact Hmap].
Defined.

Lemma X4_evict_takes_a_with_c :
  JSMap.get "/a.ts"
    (Cache.map (this_after
       (Cache.evict (Some (fun key => String.eqb key "/b.ts"))
          store_of_three quiet_world)))
  = None.
Proof.
  apply (@evict_removes_oldest_first _ store_of_three quiet_world
           (Some (fun key => String.eqb key "/b.ts")) "/a.ts" "/c.ts" entry_a
           [] [("/b.ts", entry_b); ("/c.ts", entry_c)]).
  - exact store_of_three_wf.
  - reflexivity.
  - simpl. right. left. reflexivity.
  - reflexivity.
  - reflexivity.
Defined.

Lemma X6_updateCache_drops_a_ts_only :
  Cache.map (FileCache.fileCache
    (this_after (FileCache.updateCache digests_changed files_a_b quiet_world)))
  = [("/b.ts", entry_b)]
  /\ Cache.stats (FileCache.fileCache
       (this_after (FileCache.updateCache digests_changed files_a_b quiet_world)))
     = mkStats 2 0 0.
Proof.
  assert (Hfiles : JSMap.wf (Cache.map (FileCache.fileCache files_a_b)))
    by concrete_wf.
  assert (Hdigests : JSMap.wf (as_Map digests_changed)) by concrete_wf.
  destruct (updateCache_keeps_the_valid_entries files_a_b quiet_world
              digests_changed Hfiles Hdigests) as (_ & Hmap & Hstats & _).
  split; [exact Hmap | exact Hstats].
Defined.

Lemma X7_updateCache_object_of_two :
  FileCache.updateCache
    (digests_Object [("/a.ts", "d9"); ("/b.ts", "d2")]) files_a_b quiet_world
  = FileCache.updateCache
      (digests_Map [("/a.ts", "d9"); ("/b.ts", "d2")]) files_a_b quiet_world.
Proof.
  assert (Hwf : JSMap.wf [("/a.ts", "d9"); ("/b.ts", "d2")]) by concrete_wf.
  exact (proj2 (updateCache_object_as_Map files_a_b quiet_world Hwf)).
Defined.

Lemma X8_setMaxCacheSize_minus_one_and_five :
  FileCache.setMaxCacheSize (-1) files_a_b quiet_world
  = (Throw (FileCache_max_size_is_negative (-1)), files_a_b, quiet_world)
  /\ FileCache.maxMemoryUsage
       (this_after (FileCache.setMaxCacheSize 5 files_a_b quiet_world)) = 5.
Proof.
  split.
  - destruct (setMaxCacheSize_checks_first files_a_b quiet_world (-1))
      as (Hneg & _).
    apply Hneg. lia.
  - destruct (setMaxCacheSize_checks_first files_a_b quiet_world 5)
      as (_ & Hok & _).
    assert (Hpos : 0 <= 5) by lia.
    destruct (Hok Hpos) as (_ & Hlimit & _). exact Hlimit.
Defined.

Lemma X9_putCache_c_ts_then_getCache :
  result_of
    (FileCache.getCache "/c.ts"
       (this_after (FileCache.putCache "/c.ts" entry_c files_a_b pressured_world))
       quiet_world)
  = Return (Some (FileCache.value entry_c))
  /\ JSMap.get "/a.ts"
       (Cache.map (FileCache.fileCache
          (this_after (FileCache.putCache "/c.ts" entry_c files_a_b
                         pressured_world))))
     = Some entry_a.
Proof.
  destruct (putCache_then_getCache files_a_b pressured_world quiet_world
              "/c.ts" entry_c) as (_ & Hget & _ & Hknown).
  split; [exact Hget | exact (Hknown "/a.ts" eq_refl)].
Defined.

Lemma X10_maybeFreeMemory_counts :
  result_of (FileCache.maybeFreeMemory files_not_expected pressured_world)
  = Return 1
  /\ this_after (FileCache.maybeFreeMemory files_a_b quiet_world) = files_a_b.
Proof.
  split.
  - destruct (maybeFreeMemory_returns_what_it_dropped files_not_expected
                pressured_world) as (Hcount & _).
    exact Hcount.
  - destruct (maybeFreeMemory_returns_what_it_dropped files_a_b quiet_world)
      as (_ & _ & _ & _ & _ & Hidle).
    apply Hidle. vm_compute. discriminate.
Defined.

Lemma X11_putCache_c_ts_under_pressure :
  Cache.map (FileCache.fileCache
    (this_after (FileCache.putCache "/c.ts" entry_c files_not_expected
                   pressured_world)))
  = [("/b.ts", entry_b); ("/c.ts", entry_c)].
Proof.
  assert (Hwf : JSMap.wf (Cache.map (FileCache.fileCache files_not_expected)))
    by concrete_wf.
  assert (Hpressure : heapUsed pressured_world (ticks pressured_world)
                      > FileCache.maxMemoryUsage files_not_expected)
    by (vm_compute; reflexivity).
  destruct (putCache_under_memory_pressure files_not_expected pressured_world
              "/c.ts" entry_c eq_refl Hpressure Hwf
              (fun _ _ => eq_refl) eq_refl) as (Heven & _).
  exact (Heven eq_refl).
Defined.

Lemma X13_a_ts_stays_cached :
  JSMap.get "/a.ts"
    (Cache.map (FileCache.fileCache
       (fst (run_FileCacheOps
               [call_getCache "/b.ts"; call_putCache "/c.ts" entry_c;
                call_maybeFreeMemory; call_setMaxCacheSize 0]
               files_a_b pressured_world))))
  = Some entry_a.
Proof.
  exact (proj2 (known_inputs_stay_cached
                  [call_getCache "/b.ts"; call_putCache "/c.ts" entry_c;
                   call_maybeFreeMemory; call_setMaxCacheSize 0]
                  files_a_b pressured_world "/a.ts" eq_refl eq_refl)).
Defined.

Lemma X14_loadFile_hit_with_an_empty_disk :
  result_of (CachedFileLoader.loadFile "other.ts" "/a.ts" 2 loader_a_b quiet_world)
  = Return (FileCache.value entry_a).
Proof.
  destruct (loadFile_hit_ignores_the_disk loader_a_b quiet_world "other.ts"
              "/a.ts" 2 (e := entry_a) eq_refl) as (Hvalue & _).
  exact Hvalue.
Defined.


Lemma X16_programs_shield_the_files :
  result_of (ProgramAndFileCache.maybeFreeMemory programs_and_files
               pressured_world) = Return 1
  /\ ProgramAndFileCache.super
       (this_after (ProgramAndFileCache.maybeFreeMemory programs_and_files
                      pressured_world))
     = files_a_b.
Proof.
  destruct (ProgramAndFileCache_maybeFreeMemory_accounts programs_and_files
              pressured_world) as (Hcount & _ & _ & _ & _ & Hsuper).
  split; [exact Hcount|].
  apply Hsuper. left. discriminate.
Defined.

Lemma X17_putProgram_then_getProgram_new :
  result_of
    (ProgramAndFileCache.getProgram "//app:new"
       (this_after (ProgramAndFileCache.putProgram "//app:new" "new"
                      programs_and_files pressured_world))
       quiet_world)
  = Return (Some "new")
  /\ ProgramAndFileCache.super
       (this_after (ProgramAndFileCache.putProgram "//app:new" "new"
                      programs_and_files pressured_world))
     = files_a_b.
Proof.
  destruct (putProgram_then_getProgram programs_and_files pressured_world
              quiet_world "//app:new" "new") as (_ & Hget & _ & _ & Hsuper).
  split; [exact Hget|].
  apply Hsuper. left. discriminate.
Defined.

End FurtherPropertiesAtConcreteInputs.
